(** * Document scanner: corner ordering, rectification, enhancement, border

    A shallow embedding of [scanner.py] (order_points, four_point_transform,
    enhance_document, add_white_border, process_document_from_array,
    process_document) and of the upload filter of [server.py]
    (allowed_file), with the properties the specification states about them
    and further ones read off the code.

    The Python code leans on NumPy and OpenCV.  NumPy's floating-point
    arithmetic is the Standard Library's [SpecFloat] at the precision of the
    array or scalar at hand; [argmin]/[argmax] follow NumPy's scalar loops.
    Where the C library or the processor decides a result ([powf] on a
    square that is not a float32, a fused or a separate multiply-add, the
    conversion of a float that fits no int) the choice is a parameter, and
    the properties hold for every choice.
    Of OpenCV, the two functions whose arithmetic the properties depend on
    ([copyMakeBorder], [convertScaleAbs]) are written out from their
    documentation and source; the others (homography, resampling, colour
    conversion, CLAHE) are the fields of an interface, and what is assumed
    of them is a separate record of laws. *)

From Stdlib Require Import ZArith QArith Qround Qabs Qminmax Qpower List Bool Lia.
From Stdlib Require Import Permutation.
From Stdlib Require Import Floats.SpecFloat.
Import ListNotations.

Local Open Scope Z_scope.

(** ** Exceptions *)

(** The exceptions that can leave the module.  The specification files all
    of them under the one name InvalidInput. *)
Inductive exn : Type :=
| ValueError      (* int(nan); argmin of an empty sequence *)
| OverflowError   (* int(inf) *)
| AxisError       (* sum(axis=1) on a one-dimensional array *)
| IndexError
| cv2_error.      (* a failed CV_Assert inside OpenCV *)

Inductive result (A : Type) : Type :=
| Ok (a : A)
| Raise (e : exn).

Arguments Ok {A} a.
Arguments Raise {A} e.

Definition bind {A B : Type} (r : result A) (k : A -> result B) : result B :=
  match r with
  | Ok a => k a
  | Raise e => Raise e
  end.

Notation "x <- r ;; k" := (bind r (fun x => k))
  (at level 61, r at next level, right associativity).

(** ** Floating-point numbers *)

Module Float.

(** An IEEE 754 binary float, as a NumPy scalar or array element holds it;
    the format (float32, float64) is that of the operation that made it. *)
Definition float : Type := spec_float.

(** float32: 24 bits of precision, exponents up to 128. *)
Definition add32 : float -> float -> float := SFadd 24 128.
Definition sub32 : float -> float -> float := SFsub 24 128.
Definition mul32 : float -> float -> float := SFmul 24 128.

(** [np.float32(z)] for a Python integer: round to nearest, ties to even. *)
Definition float32 (z : Z) : float := binary_normalize 24 128 z 0 false.

(** A Python integer as the nearest double: [float(z)], and [z] where an
    operand of a float operation. *)
Definition float64 (z : Z) : float := binary_normalize 53 1024 z 0 false.

(** An integer as a float that is not rounded. *)
Definition of_int (z : Z) : float :=
  match z with
  | Z0 => S754_zero false
  | Zpos p => S754_finite false p 0
  | Zneg p => S754_finite true p 0
  end.

(** Python's [a / b] on an integer and a positive integer: the quotient of
    the two integers, rounded once to a double; OverflowError where it is
    past the largest double. *)
Definition truediv (a : Z) (b : positive) : result float :=
  match SFdiv 53 1024 (of_int a) (of_int (Zpos b)) with
  | S754_infinity _ => Raise OverflowError
  | q => Ok q
  end.

(** The C cast [(float)x] of a double. *)
Definition to_float32 (x : float) : float :=
  match x with
  | S754_finite s m e => binary_normalize 24 128 (cond_Zopp s (Zpos m)) e s
  | _ => x
  end.

(** [fmaf(x, a, b)]: the exact product [x * a] added to [b], rounded
    once. *)
Definition fma32 (x a b : float) : float :=
  match x, a, b with
  | S754_finite sx mx ex, S754_finite sa ma ea, S754_finite _ _ _ =>
      add32 (S754_finite (xorb sx sa) (mx * ma) (ex + ea)) b
  | S754_finite _ _ _, S754_finite _ _ _, S754_infinity _ => b
  | S754_finite _ _ _, S754_finite _ _ _, S754_zero _ => mul32 x a
  | _, _, _ => add32 (mul32 x a) b
  end.

(** The float32 that [powf(x, 2)] returns for the finite, non-zero
    [x = +-m * 2^e].  The C library's [powf] is faithful, not correctly
    rounded: where the square is a float32 it returns it, elsewhere one of
    the two float32 next to it, and which one is the library's affair.
    [up] says whether it is the upper one.  Past the largest float32 the
    result is [+inf]. *)
Definition powf_square (up : bool) (m : positive) (e : Z) : float :=
  let '(mrs, e1) := shr_fexp 24 128 (Zpos (m * m)) (e + e) loc_Exact in
  let m1 := match loc_of_shr_record mrs with
            | loc_Exact => shr_m mrs
            | loc_Inexact _ => if up then shr_m mrs + 1 else shr_m mrs
            end in
  let '(mrs2, e2) := shr_fexp 24 128 m1 e1 loc_Exact in
  match shr_m mrs2 with
  | Z0 => S754_zero false
  | Zpos m2 =>
      if e2 <=? 128 - 24 then S754_finite false m2 e2 else S754_infinity false
  | Zneg _ => S754_nan
  end.

Definition is_nan (x : float) : bool :=
  match x with S754_nan => true | _ => false end.

(** Neither NaN nor an infinity. *)
Definition is_finite (x : float) : bool :=
  match x with
  | S754_zero _ | S754_finite _ _ _ => true
  | _ => false
  end.

(** The number a float denotes: [-inf] has rank -1, [+inf] rank 1, the
    others rank 0 and their value [(-1)^s * m * 2^e]. *)
Definition rank (x : float) : Z :=
  match x with
  | S754_infinity true => -1
  | S754_infinity false => 1
  | _ => 0
  end.

Definition val (x : float) : Q :=
  match x with
  | S754_finite s m e => inject_Z (cond_Zopp s (Zpos m)) * (2 # 1) ^ e
  | _ => 0
  end.

(** IEEE 754 comparison: unordered as soon as a NaN is involved, by the
    denoted number otherwise (so [-0 == +0]). *)
Definition compare (x y : float) : option comparison :=
  if is_nan x || is_nan y then None
  else Some match (rank x ?= rank y)%Z with
            | Eq => (val x ?= val y)%Q
            | c => c
            end.

Definition ltb (x y : float) : bool :=
  match compare x y with Some Lt => true | _ => false end.
Definition leb (x y : float) : bool :=
  match compare x y with Some (Lt | Eq) => true | _ => false end.
Definition geb (x y : float) : bool :=
  match compare x y with Some (Gt | Eq) => true | _ => false end.
Definition gtb (x y : float) : bool :=
  match compare x y with Some Gt => true | _ => false end.
Definition eqb (x y : float) : bool :=
  match compare x y with Some Eq => true | _ => false end.

(** Truncation of a rational toward zero. *)
Definition Qtrunc (q : Q) : Z := Z.quot (Qnum q) (Zpos (Qden q)).

(** Python's [int(x)] on a float. *)
Definition int (x : float) : result Z :=
  match x with
  | S754_nan => Raise ValueError
  | S754_infinity _ => Raise OverflowError
  | _ => Ok (Qtrunc (val x))
  end.

End Float.

Import Float.

(** ** NumPy *)

Module np.

(** A row of an (n, 2) float32 array. *)
Definition point : Type := (float * float)%type.

(** The two metrics of a row [(x, y)]: [s = x + y] and [d = y - x]. *)
Definition row_sum (p : point) : float := add32 (fst p) (snd p).
Definition row_diff (p : point) : float := sub32 (snd p) (fst p).

(** [a.sum(axis=1)] on an (n, 2) array.  The empty Python list becomes an
    array of shape (0,), which has no axis 1. *)
Definition sum_axis1 (a : list point) : result (list float) :=
  match a with
  | [] => Raise AxisError
  | _ => Ok (map row_sum a)
  end.

(** [np.diff(a, axis=1)] on an (n, 2) array: the one column [y - x]. *)
Definition diff_axis1 (a : list point) : list float := map row_diff a.

Section ArgExtremum.
(** [keeps x mp] is the test under which the running extremum [mp]
    survives element [x]: [x >= mp] for argmin, [x <= mp] for argmax. *)
Variable keeps : float -> float -> bool.

(** The loop of NumPy's FLOAT_argmin / FLOAT_argmax, from index [i] on. *)
Fixpoint arg_loop (ip : list float) (i : nat) (mp : float) (ind : nat) : nat :=
  match ip with
  | [] => ind
  | x :: ip' =>
      if negb (keeps x mp)
      then if is_nan x then i else arg_loop ip' (S i) x i
      else arg_loop ip' (S i) mp ind
  end.

Definition arg_extremum (a : list float) : result nat :=
  match a with
  | [] => Raise ValueError
  | x :: ip => if is_nan x then Ok 0%nat else Ok (arg_loop ip 1 x 0)
  end.
End ArgExtremum.

Definition argmin : list float -> result nat := arg_extremum geb.
Definition argmax : list float -> result nat := arg_extremum leb.

(** [a[i]] *)
Definition getitem {A : Type} (a : list A) (i : nat) : result A :=
  match nth_error a i with
  | Some x => Ok x
  | None => Raise IndexError
  end.

(** [a[i] = v] on an array that has index [i]. *)
Fixpoint setitem {A : Type} (a : list A) (i : nat) (v : A) : list A :=
  match a, i with
  | [], _ => []
  | _ :: a', O => v :: a'
  | x :: a', S i' => x :: setitem a' i' v
  end.

(** What [x ** 2] makes of a float32 scalar [x] and the Python integer 2:
    NumPy 2 (NEP 50) stays in float32 and calls [powf], NumPy 1 promotes to
    float64 and calls [pow]; the sum and the square root that follow inherit
    the type.  [NEP50 up] is NumPy 2 on a C library whose [powf(x, 2)]
    rounds the square of [x] upward exactly where [up x] holds (see
    [powf_square]). *)
Inductive promotion : Type :=
| NEP50 (up : float -> bool)
| Legacy.

Definition scalar_prec (r : promotion) : Z :=
  match r with NEP50 _ => 24 | Legacy => 53 end.
Definition scalar_emax (r : promotion) : Z :=
  match r with NEP50 _ => 128 | Legacy => 1024 end.

(** [x ** 2] on the float32 scalar [x].  In float64 the square of a float32
    is exact. *)
Definition square (r : promotion) (x : float) : float :=
  match r with
  | NEP50 up =>
      match x with
      | S754_finite _ m e => powf_square (up x) m e
      | _ => mul32 x x
      end
  | Legacy => SFmul 53 1024 x x
  end.

(** [np.zeros((4, 2), dtype="float32")] *)
Definition zeros_4_2 : list point :=
  repeat (S754_zero false, S754_zero false) 4.

End np.

Import np.

(** ** Images *)

(** One pixel: its three 8-bit channels. *)
Definition pixel : Type := (Z * Z * Z)%type.

(** An image is the list of its rows; a single channel likewise. *)
Definition Image : Type := list (list pixel).
Definition channel : Type := list (list Z).

Definition rows {A : Type} (img : list (list A)) : Z := Z.of_nat (length img).
Definition cols {A : Type} (img : list (list A)) : Z :=
  match img with
  | [] => 0
  | r :: _ => Z.of_nat (length r)
  end.

(** [img.shape[:2] == (h, w)] *)
Definition has_shape {A : Type} (img : list (list A)) (h w : Z) : Prop :=
  rows img = h /\ Forall (fun r => Z.of_nat (length r) = w) img.

(** ** OpenCV *)

Module cv2.

(** The 3x3 matrix of a homography, row by row. *)
Definition matrix : Type := list (list spec_float).

Inductive color_code : Type := COLOR_BGR2LAB | COLOR_LAB2BGR.

(** The functions the scanner calls and whose pixel arithmetic is left
    open here. *)
Record impl : Type := {
  getPerspectiveTransform : list point -> list point -> result matrix;
  warpPerspective : Image -> matrix -> Z * Z -> result Image;
  cvtColor : Image -> color_code -> result Image;
  (* createCLAHE(clipLimit, tileGridSize).apply(channel) *)
  clahe_apply : Q -> Z * Z -> channel -> result channel;
  (* whether the convertScaleAbs kernel that runs on a given source (the
     vector one or the scalar one, as compiled for the processor) fuses
     src * alpha + beta into one rounding *)
  fused_multiply_add : Image -> bool;
  (* what saturate_cast<uchar> makes of a float that rounds to no int: the
     processor's conversion decides *)
  cvRound_indefinite : float -> Z
}.

(** The sources OpenCV's resampler accepts: not empty, rectangular, each
    side below SHRT_MAX. *)
Definition accepts_src (img : Image) : bool :=
  (0 <? rows img) && (rows img <? 32767) &&
  (0 <? cols img) && (cols img <? 32767) &&
  forallb (fun r => Z.of_nat (length r) =? cols img) img.

Definition accepts_dsize (dsize : Z * Z) : bool :=
  (0 <? fst dsize) && (fst dsize <? 32767) &&
  (0 <? snd dsize) && (snd dsize <? 32767).

(** What is assumed of an implementation. *)
Record laws (cv : impl) : Prop := {
  (* four source and four destination points always give a matrix: a
     singular system is solved to the zero matrix, not refused *)
  getPerspectiveTransform_total : forall src dst,
    length src = 4%nat -> length dst = 4%nat ->
    exists M, getPerspectiveTransform cv src dst = Ok M;
  (* the destination has the size asked for: dsize is (width, height) *)
  warpPerspective_shape : forall img M w h out,
    warpPerspective cv img M (w, h) = Ok out -> has_shape out h w;
  warpPerspective_total : forall img M dsize,
    accepts_src img = true -> accepts_dsize dsize = true ->
    exists out, warpPerspective cv img M dsize = Ok out
}.

(** [cv2.copyMakeBorder(src, top, bottom, left, right, BORDER_CONSTANT,
    value)]: its first assertion refuses a negative side. *)
Definition copyMakeBorder (src : Image) (top bottom left right : Z)
    (value : pixel) : result Image :=
  if (top <? 0) || (bottom <? 0) || (left <? 0) || (right <? 0)
  then Raise cv2_error
  else
    let blank := repeat value (Z.to_nat (left + cols src + right)) in
    Ok (repeat blank (Z.to_nat top)
        ++ map (fun r => repeat value (Z.to_nat left) ++ r
                         ++ repeat value (Z.to_nat right)) src
        ++ repeat blank (Z.to_nat bottom)).

(** [cvRound]: to the nearest integer, ties to the even one. *)
Definition cvRound (q : Q) : Z :=
  let f := Qfloor q in
  match (q - inject_Z f ?= 1 # 2)%Q with
  | Lt => f
  | Gt => f + 1
  | Eq => if Z.even f then f else f + 1
  end.

(** A Python integer given for a parameter of C type double: the nearest
    double; the binding refuses an integer past the largest double. *)
Definition to_double (z : Z) : result float :=
  let x := float64 z in
  if is_finite x then Ok x else Raise cv2_error.

(** [saturate_cast<uchar>(x)] on a float: [cvRound], then the clamp to
    0..255. *)
Definition saturate_cast_uchar (indefinite : float -> Z) (x : float) : Z :=
  let n := cvRound (val x) in
  if is_finite x && (-2147483648 <=? n) && (n <=? 2147483647)
  then Z.max 0 (Z.min 255 n)
  else indefinite x.

(** The channel a uint8 array holds. *)
Definition uchar (v : Z) : Z := v mod 256.

(** One element of [convertScaleAbs] on an 8-bit source:
    [saturate_cast<uchar>(|src * a + b|)], computed in float32. *)
Definition scale_abs (fused : bool) (indefinite : float -> Z) (a b : float)
    (v : Z) : Z :=
  let x := float32 (uchar v) in
  let y := if fused then fma32 x a b else add32 (mul32 x a) b in
  saturate_cast_uchar indefinite (SFabs y).

(** [cv2.convertScaleAbs(src, alpha=alpha, beta=beta)]: the two doubles are
    cast to float first. *)
Definition convertScaleAbs (cv : impl) (src : Image) (alpha beta : float)
    : Image :=
  let a := to_float32 alpha in
  let b := to_float32 beta in
  let f := scale_abs (fused_multiply_add cv src) (cvRound_indefinite cv) a b in
  map (map (fun px : pixel =>
              let '(c0, c1, c2) := px in (f c0, f c1, f c2))) src.

Definition split (img : Image) : channel * channel * channel :=
  (map (map (fun px : pixel => fst (fst px))) img,
   map (map (fun px : pixel => snd (fst px))) img,
   map (map (fun px : pixel => snd px)) img).

Definition same_size (a b : channel) : bool :=
  (length a =? length b)%nat &&
  forallb (fun rr => (length (fst rr) =? length (snd rr))%nat) (combine a b).

Definition zip3 (r0 r1 r2 : list Z) : list pixel :=
  map (fun t => (fst (fst t), snd (fst t), snd t)) (combine (combine r0 r1) r2).

(** [cv2.merge] refuses channels of different sizes. *)
Definition merge (c0 c1 c2 : channel) : result Image :=
  if same_size c0 c1 && same_size c0 c2
  then Ok (map (fun t => zip3 (fst (fst t)) (snd (fst t)) (snd t))
               (combine (combine c0 c1) c2))
  else Raise cv2_error.

End cv2.

(** ** scanner.py *)

(** [order_points(pts)].  [pts] is the float32 array of line 17: the rows the
    caller's numbers round to.  A float32 array passes line 17 unchanged, so
    the function applies to its own result. *)
Definition order_points (pts : list point) : result (list point) :=
  let rect := zeros_4_2 in
  s <- sum_axis1 pts ;;
  i <- argmin s ;; p <- getitem pts i ;;
  let rect := setitem rect 0 p in
  i <- argmax s ;; p <- getitem pts i ;;
  let rect := setitem rect 2 p in
  let diff := diff_axis1 pts in
  i <- argmin diff ;; p <- getitem pts i ;;
  let rect := setitem rect 1 p in
  i <- argmax diff ;; p <- getitem pts i ;;
  let rect := setitem rect 3 p in
  Ok rect.

(** [np.sqrt(((p[0] - q[0]) ** 2) + ((p[1] - q[1]) ** 2))]: the differences
    in float32, the squares as [r] has them, their sum and the root
    (correctly rounded) in the type the promotion rule [r] gives. *)
Definition euclidean (r : promotion) (p q : point) : float :=
  let dx := sub32 (fst p) (fst q) in
  let dy := sub32 (snd p) (snd q) in
  let P := scalar_prec r in
  let E := scalar_emax r in
  SFsqrt P E (SFadd P E (square r dx) (square r dy)).

Section Scanner.

Variable cv : cv2.impl.
Variable r : promotion.

Definition four_point_transform (image : Image) (pts : list point)
    : result Image :=
  rect <- order_points pts ;;
  match rect with
  | [tl; tr; br; bl] =>
      let widthA := euclidean r br bl in
      let widthB := euclidean r tr tl in
      iA <- int widthA ;; iB <- int widthB ;;
      let maxWidth := Z.max iA iB in
      let heightA := euclidean r tr br in
      let heightB := euclidean r tl bl in
      jA <- int heightA ;; jB <- int heightB ;;
      let maxHeight := Z.max jA jB in
      let maxWidth := Z.max maxWidth 100 in
      let maxHeight := Z.max maxHeight 100 in
      let dst := [ (float32 0, float32 0);
                   (float32 (maxWidth - 1), float32 0);
                   (float32 (maxWidth - 1), float32 (maxHeight - 1));
                   (float32 0, float32 (maxHeight - 1)) ] in
      M <- cv2.getPerspectiveTransform cv rect dst ;;
      cv2.warpPerspective cv image M (maxWidth, maxHeight)
  | _ => Raise ValueError   (* unpacking a rect that has not four rows *)
  end.

Definition enhance_document (image : Image) (brightness contrast : Z)
    : result Image :=
  lab <- cv2.cvtColor cv image cv2.COLOR_BGR2LAB ;;
  let '(l, a, b) := cv2.split lab in
  l <- cv2.clahe_apply cv 2 (8, 8) l ;;
  lab <- cv2.merge l a b ;;
  enhanced <- cv2.cvtColor cv lab cv2.COLOR_LAB2BGR ;;
  if negb (brightness =? 0) || negb (contrast =? 0)
  then
    let beta := brightness in
    q <- truediv contrast 100 ;;
    let alpha := SFadd 53 1024 (float64 1) q in
    beta <- cv2.to_double beta ;;
    Ok (cv2.convertScaleAbs cv enhanced alpha beta)
  else Ok enhanced.

Definition add_white_border (image : Image) (padding : Z)
    : result Image :=
  cv2.copyMakeBorder image padding padding padding padding (255, 255, 255).

Definition process_document_from_array (image_array : Image)
    (corners : list point) (enhance add_border : bool)
    : result Image :=
  warped <- four_point_transform image_array corners ;;
  warped <- (if enhance then enhance_document warped 0 0 else Ok warped) ;;
  warped <- (if add_border then add_white_border warped 20 else Ok warped) ;;
  Ok warped.

End Scanner.

(** ** What argmin and argmax return *)

(** [a[i]] is [v], nothing in [a] beats it, and no earlier element equals
    it.  [beats x y] is [x < y] for argmin and [x > y] for argmax. *)
Definition extremum_at (beats : float -> float -> bool) (a : list float) (i : nat)
    (v : float) : Prop :=
  nth_error a i = Some v /\
  forall j z, nth_error a j = Some z ->
    beats z v = false /\ (eqb z v = true -> (i <= j)%nat).

(** ** Extremal points of an array *)

(** No point of [pts] is strictly below [v] on metric [f] and, where neither
    value is a NaN, [v] is below or equal. *)
Definition minimal_on (f : point -> float) (pts : list point) (v : point) : Prop :=
  forall p, In p pts ->
    ltb (f p) (f v) = false /\
    (is_nan (f p) = false -> is_nan (f v) = false -> leb (f v) (f p) = true).

Definition maximal_on (f : point -> float) (pts : list point) (v : point) : Prop :=
  forall p, In p pts ->
    ltb (f v) (f p) = false /\
    (is_nan (f p) = false -> is_nan (f v) = false -> leb (f p) (f v) = true).

(** [pts[i]] is [v], and no earlier row has a metric value equal to [v]'s. *)
Definition first_of_ties (f : point -> float) (pts : list point) (i : nat)
    (v : point) : Prop :=
  nth_error pts i = Some v /\
  forall j p, nth_error pts j = Some p -> eqb (f p) (f v) = true -> (i <= j)%nat.

(** Two different points never tie on [f]: one is strictly below the other. *)
Definition strictly_ordered (f : point -> float) (pts : list point) : Prop :=
  forall p q, In p pts -> In q pts -> p <> q ->
    ltb (f p) (f q) = true \/ ltb (f q) (f p) = true.

(** ** The sides as the program computes them *)

(** The larger of two floats: [b] when [b > a], else [a]. *)
Definition fmax (a b : float) : float := if gtb b a then b else a.

(** The larger of two computed lengths, truncated by [int], floored at
    100. *)
Definition computed_side (d1 d2 : float) : result Z :=
  n <- int (fmax d1 d2) ;; Ok (Z.max n 100).

Definition computed_width (r : promotion) (tl tr br bl : point) : result Z :=
  computed_side (euclidean r br bl) (euclidean r tr tl).

Definition computed_height (r : promotion) (tl tr br bl : point) : result Z :=
  computed_side (euclidean r tr br) (euclidean r tl bl).

(** ** The specification's formulas, for comparison *)

Module Spec.

(** The square of the Euclidean distance between two points of finite
    coordinates, exactly. *)
Definition distance2 (p q : point) : Q :=
  (val (fst p) - val (fst q)) ^ 2 + (val (snd p) - val (snd q)) ^ 2.

(** The integer part of the square root of a rational that is not
    negative. *)
Definition isqrt (q : Q) : Z := Z.sqrt (Qfloor q).

(** "max(euclidean(p1, q1), euclidean(p2, q2)), truncated to integer,
    floored at 100".  The larger distance is the root of the larger
    square. *)
Definition side (p1 q1 p2 q2 : point) : Z :=
  Z.max (isqrt (Qmax (distance2 p1 q1) (distance2 p2 q2))) 100.

(** "width max(euclidean(BR,BL), euclidean(TR,TL))" *)
Definition width (tl tr br bl : point) : Z := side br bl tr tl.

(** "height max(euclidean(TR,BR), euclidean(TL,BL))" *)
Definition height (tl tr br bl : point) : Z := side tr br tl bl.

(** "output = clamp(alpha * input + beta, 0, 255)" with beta = brightness
    and alpha = 1 + contrast/100. *)
Definition remap (brightness contrast v : Z) : Q :=
  let beta := inject_Z brightness in
  let alpha := (1 + inject_Z contrast / 100)%Q in
  Qmax 0 (Qmin 255 (inject_Z v * alpha + beta)).

End Spec.

(** ** A reference implementation of the OpenCV interface *)

Module Flat.

Definition zero_matrix : cv2.matrix :=
  repeat (repeat (S754_zero false) 3) 3.

Definition getPerspectiveTransform (src dst : list point) : result cv2.matrix :=
  if ((length src =? 4) && (length dst =? 4))%nat
  then Ok zero_matrix
  else Raise cv2_error.

(** Every destination pixel is the source's first pixel: what OpenCV's
    resampler yields for the zero matrix. *)
Definition warpPerspective (img : Image) (M : cv2.matrix) (dsize : Z * Z)
    : result Image :=
  if cv2.accepts_src img && cv2.accepts_dsize dsize
  then Ok (repeat (repeat (hd (0, 0, 0) (hd [] img)) (Z.to_nat (fst dsize)))
                  (Z.to_nat (snd dsize)))
  else Raise cv2_error.

Definition cv : cv2.impl :=
  {| cv2.getPerspectiveTransform := getPerspectiveTransform;
     cv2.warpPerspective := warpPerspective;
     cv2.cvtColor := fun img _ => Ok img;
     cv2.clahe_apply := fun _ _ ch => Ok ch;
     cv2.fused_multiply_add := fun _ => false;
     cv2.cvRound_indefinite := fun _ => 0 |}.

End Flat.

(** ** Sample inputs *)

(** A point with integer coordinates. *)
Definition pt (x y : Z) : point := (float32 x, float32 y).

(** A [powf] that rounds the square to the nearest float32, and upward
    where the square lies halfway between two of them. *)
Definition nearest_ties_up (x : float) : bool :=
  match x with
  | S754_finite _ m e =>
      let '(mrs, _) := shr_fexp 24 128 (Zpos (m * m)) (e + e) loc_Exact in
      match loc_of_shr_record mrs with
      | loc_Inexact Lt => false
      | _ => true
      end
  | _ => false
  end.

(** NumPy 2 on such a C library. *)
Definition NumPy2 : promotion := NEP50 nearest_ties_up.

(** A black image of [h] rows and [w] columns. *)
Definition black (h w : nat) : Image := repeat (repeat (0, 0, 0) w) h.

(** The quad of the specification's scenario, on a 400x300 source. *)
Definition scenario_quad : list point :=
  [pt 50 40; pt 350 30; pt 360 270; pt 40 280].

(** A convex quad whose first two corners tie on [y - x]. *)
Definition tied_quad : list point := [pt 3 3; pt 0 0; pt 3 6; pt 0 4].

(** A quad whose top side is a hair shorter than 4233: its length squared
    is 4233^2 - 1. *)
Definition wide_quad : list point :=
  [pt 0 100; pt 4232 192; pt 4200 400; pt 0 300].

(** Five corners: the unit square scaled by 200, and its centre. *)
Definition five_corners : list point :=
  [pt 0 0; pt 200 0; pt 200 200; pt 0 200; pt 100 100].

(** ** More of OpenCV *)

Definition white : pixel := (255, 255, 255).

(** Colour conversion and CLAHE return an array of the size they are
    given. *)
Record enhance_laws (cv : cv2.impl) : Prop := {
  cvtColor_shape : forall img code out h w,
    cv2.cvtColor cv img code = Ok out -> has_shape img h w ->
    has_shape out h w;
  clahe_apply_shape : forall clip grid ch out h w,
    cv2.clahe_apply cv clip grid ch = Ok out -> has_shape ch h w ->
    has_shape out h w
}.

(** Every channel of every pixel satisfies [P]. *)
Definition all_channels (P : Z -> Prop) (img : Image) : Prop :=
  Forall (Forall (fun px : pixel =>
                    P (fst (fst px)) /\ P (snd (fst px)) /\ P (snd px))) img.

(** The image with [f] applied to every channel of every pixel. *)
Definition map_channels (f : Z -> Z) (img : Image) : Image :=
  map (map (fun px : pixel =>
              let '(c0, c1, c2) := px in (f c0, f c1, f c2))) img.

(** ** The four side lengths of an ordered quad *)

(** widthA, widthB, heightA, heightB of four_point_transform. *)
Definition side_lengths (r : promotion) (tl tr br bl : point) : list float :=
  [euclidean r br bl; euclidean r tr tl; euclidean r tr br; euclidean r tl bl].

(** ** Python strings and files *)

(** A [str]: its code points. *)
Definition str : Type := list N.

Definition str_eqb (a b : str) : bool :=
  if list_eq_dec N.eq_dec a b then true else false.

(** A computation that may raise and may change a state of type [S]. *)
Definition io (S A : Type) : Type := S -> result A * S.

Definition io_ret {S A : Type} (a : A) : io S A := fun st => (Ok a, st).

Definition io_lift {S A : Type} (r : result A) : io S A := fun st => (r, st).

Definition io_bind {S A B : Type} (m : io S A) (k : A -> io S B) : io S B :=
  fun st =>
    match m st with
    | (Ok a, st') => k a st'
    | (Raise e, st') => (Raise e, st')
    end.

Notation "x <~ m ;; k" := (io_bind m (fun x => k))
  (at level 61, m at next level, right associativity).

(** ** scanner.py, the entry point that reads a file *)

Definition IMWRITE_JPEG_QUALITY : Z := 1.

Section Files.

Variable cv : cv2.impl.
Variable r : promotion.

(** The file system, [cv2.imread] (None for a file it cannot decode) and
    [cv2.imwrite] (its boolean is ignored by the caller; it may raise). *)
Variable fs : Type.
Variable imread : fs -> str -> option Image.
Variable imwrite : fs -> str -> Image -> list Z -> result bool * fs.

(** [output_path] is None, the default, or a string; [if output_path:] holds
    for a string that is not empty. *)
Definition process_document (image_path : str) (corners : list point)
    (output_path : option str) (enhance add_border : bool) : io fs Image :=
  image <~ (fun st => match imread st image_path with
                      | Some image => (Ok image, st)
                      | None => (Raise ValueError, st)
                      end) ;;
  warped <~ io_lift (four_point_transform cv r image corners) ;;
  warped <~ io_lift (if enhance then enhance_document cv warped 0 0
                     else Ok warped) ;;
  warped <~ io_lift (if add_border then add_white_border warped 20
                     else Ok warped) ;;
  _ <~ (match output_path with
        | Some (c :: path) =>
            fun st => imwrite st (c :: path) warped [IMWRITE_JPEG_QUALITY; 95]
        | _ => io_ret true
        end) ;;
  io_ret warped.

End Files.

(** ** server.py: the upload filter *)

Module server.

(** ['.'] *)
Definition dot : N := 46.

(** {'png', 'jpg', 'jpeg', 'bmp', 'webp', 'tiff'} *)
Definition ALLOWED_EXTENSIONS : list str :=
  [ [112; 110; 103];          (* png *)
    [106; 112; 103];          (* jpg *)
    [106; 112; 101; 103];     (* jpeg *)
    [98; 109; 112];           (* bmp *)
    [119; 101; 98; 112];      (* webp *)
    [116; 105; 102; 102] ]%N. (* tiff *)

(** [c in s] *)
Definition contains (c : N) (s : str) : bool := existsb (N.eqb c) s.

(** The text before and after the first [c], if there is one. *)
Fixpoint partition_first (c : N) (s : str) : option (str * str) :=
  match s with
  | [] => None
  | x :: s' =>
      if (x =? c)%N then Some ([], s')
      else match partition_first c s' with
           | Some (a, b) => Some (x :: a, b)
           | None => None
           end
  end.

(** [s.rsplit(c, 1)]: split at the last [c]. *)
Definition rsplit1 (c : N) (s : str) : list str :=
  match partition_first c (rev s) with
  | Some (a, b) => [rev b; rev a]
  | None => [s]
  end.

(** [A] to [Z] to lower case, any other code point unchanged. *)
Definition ascii_lower (c : N) : N :=
  if ((65 <=? c) && (c <=? 90))%N then (c + 32)%N else c.

Section AllowedFile.

(** [str.lower()] *)
Variable lower : str -> str.

Definition allowed_file (filename : str) : result bool :=
  if contains dot filename
  then ext <- getitem (rsplit1 dot filename) 1 ;;
       Ok (existsb (str_eqb (lower ext)) ALLOWED_EXTENSIONS)
  else Ok false.

End AllowedFile.

End server.

(** * Properties *)

(** ** The order on floats *)

Lemma compare_some (x y : float) :
  is_nan x = false -> is_nan y = false ->
  compare x y = Some match (rank x ?= rank y)%Z with
                     | Eq => (val x ?= val y)%Q
                     | c => c
                     end.
Proof.
  intros Hx Hy. unfold compare. rewrite Hx, Hy. reflexivity.
Qed.

Lemma compare_not_nan (x y : float) (c : comparison) :
  compare x y = Some c -> is_nan x = false /\ is_nan y = false.
Proof.
  unfold compare. destruct (is_nan x), (is_nan y); simpl; intros H;
    try discriminate; auto.
Qed.

Lemma ltb_true_iff (x y : float) :
  ltb x y = true <->
  is_nan x = false /\ is_nan y = false /\
  (rank x < rank y \/ (rank x = rank y /\ (val x < val y)%Q)).
Proof.
  unfold ltb, compare.
  destruct (is_nan x), (is_nan y); simpl;
    try (split; [discriminate | intros (? & ? & _); discriminate]).
  destruct (rank x ?= rank y)%Z eqn:Hr.
  - apply Z.compare_eq_iff in Hr.
    destruct (val x ?= val y)%Q eqn:Hv.
    + apply Qeq_alt in Hv. split; [discriminate |].
      intros (_ & _ & [H | [_ H]]); [lia |].
      rewrite Hv in H. now apply Qlt_irrefl in H.
    + apply Qlt_alt in Hv. split; auto.
    + apply Qgt_alt in Hv. split; [discriminate |].
      intros (_ & _ & [H | [_ H]]); [lia |].
      exfalso. apply (Qlt_irrefl (val x)). now apply Qlt_trans with (val y).
  - rewrite Z.compare_lt_iff in Hr. split; auto.
  - rewrite Z.compare_gt_iff in Hr. split; [discriminate |].
    intros (_ & _ & [H | [H _]]); lia.
Qed.

Lemma leb_true_iff (x y : float) :
  leb x y = true <->
  is_nan x = false /\ is_nan y = false /\
  (rank x < rank y \/ (rank x = rank y /\ (val x <= val y)%Q)).
Proof.
  unfold leb, compare.
  destruct (is_nan x), (is_nan y); simpl;
    try (split; [discriminate | intros (? & ? & _); discriminate]).
  destruct (rank x ?= rank y)%Z eqn:Hr.
  - apply Z.compare_eq_iff in Hr.
    destruct (val x ?= val y)%Q eqn:Hv.
    + apply Qeq_alt in Hv. split; auto.
      intros _. repeat split; auto. right. split; auto.
      rewrite Hv. apply Qle_refl.
    + apply Qlt_alt in Hv. split; auto.
      intros _. repeat split; auto. right. split; auto.
      now apply Qlt_le_weak.
    + apply Qgt_alt in Hv. split; [discriminate |].
      intros (_ & _ & [H | [_ H]]); [lia |].
      exfalso. apply (Qlt_irrefl (val x)). now apply Qle_lt_trans with (val y).
  - rewrite Z.compare_lt_iff in Hr. split; auto.
  - rewrite Z.compare_gt_iff in Hr. split; [discriminate |].
    intros (_ & _ & [H | [H _]]); lia.
Qed.

Lemma compare_antisym (x y : float) :
  compare y x = option_map CompOpp (compare x y).
Proof.
  unfold compare. rewrite orb_comm.
  destruct (is_nan x || is_nan y); simpl; [reflexivity |].
  rewrite (Z.compare_antisym (rank x) (rank y)).
  rewrite <- (Qcompare_antisym (val x) (val y)).
  now destruct (rank x ?= rank y)%Z.
Qed.

Lemma geb_leb (x y : float) : geb x y = leb y x.
Proof.
  unfold geb, leb. rewrite (compare_antisym x y).
  destruct (compare x y) as [[ | | ] | ]; reflexivity.
Qed.

Lemma gtb_ltb (x y : float) : gtb x y = ltb y x.
Proof.
  unfold gtb, ltb. rewrite (compare_antisym x y).
  destruct (compare x y) as [[ | | ] | ]; reflexivity.
Qed.

Lemma ltb_not_nan (x y : float) :
  ltb x y = true -> is_nan x = false /\ is_nan y = false.
Proof.
  unfold ltb. destruct (compare x y) as [c | ] eqn:H; [| discriminate].
  intros _. eapply compare_not_nan; eauto.
Qed.

Lemma eqb_not_nan (x y : float) :
  eqb x y = true -> is_nan x = false /\ is_nan y = false.
Proof.
  unfold eqb. destruct (compare x y) as [c | ] eqn:H; [| discriminate].
  intros _. eapply compare_not_nan; eauto.
Qed.

Lemma leb_not_nan (x y : float) :
  leb x y = true -> is_nan x = false /\ is_nan y = false.
Proof.
  unfold leb. destruct (compare x y) as [c | ] eqn:H; [| discriminate].
  intros _. eapply compare_not_nan; eauto.
Qed.

Lemma ltb_irrefl (x : float) : ltb x x = false.
Proof.
  destruct (ltb x x) eqn:H; [| reflexivity].
  apply ltb_true_iff in H. destruct H as (_ & _ & [H | [_ H]]); [lia |].
  now apply Qlt_irrefl in H.
Qed.

Lemma ltb_trans (x y z : float) :
  ltb x y = true -> ltb y z = true -> ltb x z = true.
Proof.
  rewrite !ltb_true_iff.
  intros (Hx & _ & Hxy) (_ & Hz & Hyz). repeat split; auto.
  destruct Hxy as [Hxy | [Hxy Hxy']], Hyz as [Hyz | [Hyz Hyz']];
    try (left; lia).
  right. split; [lia |]. now apply Qlt_trans with (val y).
Qed.

Lemma ltb_asym (x y : float) : ltb x y = true -> ltb y x = false.
Proof.
  intros H. destruct (ltb y x) eqn:H'; [| reflexivity].
  pose proof (ltb_trans _ _ _ H H') as Hxx.
  now rewrite ltb_irrefl in Hxx.
Qed.

(** Among floats that are not NaN the order is total. *)
Lemma ltb_false_leb (x y : float) :
  is_nan x = false -> is_nan y = false -> ltb x y = false -> leb y x = true.
Proof.
  intros Hx Hy H. rewrite <- geb_leb.
  unfold ltb, geb in *. rewrite (compare_some _ _ Hx Hy) in *.
  destruct (rank x ?= rank y)%Z; try destruct (val x ?= val y)%Q;
    try reflexivity; discriminate.
Qed.

Lemma leb_ltb_false (x y : float) : leb x y = true -> ltb y x = false.
Proof.
  rewrite <- gtb_ltb. unfold leb, gtb.
  destruct (compare x y) as [[ | | ] | ]; auto; discriminate.
Qed.

Lemma leb_false_ltb (x y : float) :
  is_nan x = false -> is_nan y = false -> leb x y = false -> ltb y x = true.
Proof.
  intros Hx Hy. rewrite <- gtb_ltb. unfold leb, gtb.
  rewrite (compare_some _ _ Hx Hy).
  destruct (rank x ?= rank y)%Z; try destruct (val x ?= val y)%Q;
    try reflexivity; discriminate.
Qed.

(** A value equal to one strictly below [z] is strictly below [z]; likewise
    above. *)
Lemma eqb_ltb_trans (x y z : float) :
  eqb x y = true -> ltb y z = true -> ltb x z = true.
Proof.
  intros He. pose proof (eqb_not_nan _ _ He) as [Hx Hy].
  unfold eqb in He. rewrite (compare_some _ _ Hx Hy) in He.
  rewrite !ltb_true_iff. intros (_ & Hz & H). repeat split; auto.
  destruct (rank x ?= rank y)%Z eqn:Hr; try discriminate.
  apply Z.compare_eq_iff in Hr.
  destruct (val x ?= val y)%Q eqn:Hv; try discriminate.
  apply Qeq_alt in Hv.
  destruct H as [H | [H H']]; [left; lia | right].
  split; [lia |]. now rewrite Hv.
Qed.

Lemma ltb_eqb_trans (x y z : float) :
  ltb x y = true -> eqb z y = true -> ltb x z = true.
Proof.
  intros Hl He. pose proof (eqb_not_nan _ _ He) as [Hz Hy].
  unfold eqb in He. rewrite (compare_some _ _ Hz Hy) in He.
  revert Hl. rewrite !ltb_true_iff. intros (Hx & _ & H). repeat split; auto.
  destruct (rank z ?= rank y)%Z eqn:Hr; try discriminate.
  apply Z.compare_eq_iff in Hr.
  destruct (val z ?= val y)%Q eqn:Hv; try discriminate.
  apply Qeq_alt in Hv.
  destruct H as [H | [H H']]; [left; lia | right].
  split; [lia |]. now rewrite Hv.
Qed.

(** ** Agreement with the Standard Library's comparison *)

Lemma Qcompare_mult_r (x y z : Q) :
  (0 < z)%Q -> (x * z ?= y * z)%Q = (x ?= y)%Q.
Proof.
  intros Hz. destruct (x ?= y)%Q eqn:H.
  - apply Qeq_alt in H. apply Qeq_alt. now rewrite H.
  - apply Qlt_alt in H. apply Qlt_alt. now apply Qmult_lt_r.
  - apply Qgt_alt in H. apply Qgt_alt. now apply Qmult_lt_r.
Qed.

Lemma inject_Z_compare (a b : Z) : (inject_Z a ?= inject_Z b)%Q = (a ?= b)%Z.
Proof.
  unfold Qcompare, inject_Z. simpl. now rewrite !Z.mul_1_r.
Qed.

Lemma two_power_pos (e : Z) : (0 < (2 # 1) ^ e)%Q.
Proof.
  apply Qpower_0_lt. reflexivity.
Qed.

(** Comparing [a * 2^e1] with [b * 2^e2], on integers. *)
Lemma scaled_compare (a b e1 e2 : Z) :
  e1 <= e2 ->
  (inject_Z a * (2 # 1) ^ e1 ?= inject_Z b * (2 # 1) ^ e2)%Q
  = (a ?= b * 2 ^ (e2 - e1))%Z.
Proof.
  intros H.
  assert (E : (inject_Z b * (2 # 1) ^ e2
               == inject_Z (b * 2 ^ (e2 - e1)) * (2 # 1) ^ e1)%Q).
  { replace e2 with (e1 + (e2 - e1)) at 1 by lia.
    rewrite Qpower_plus by discriminate.
    rewrite inject_Z_mult, (Zpower_Qpower 2 (e2 - e1)) by lia.
    change (inject_Z 2) with (2 # 1). ring. }
  rewrite E, Qcompare_mult_r by apply two_power_pos.
  apply inject_Z_compare.
Qed.

Lemma digits2_pos_bounds (m : positive) :
  2 ^ (Zpos (digits2_pos m) - 1) <= Zpos m < 2 ^ Zpos (digits2_pos m).
Proof.
  induction m as [m IH | m IH |]; simpl digits2_pos.
  - rewrite Pos2Z.inj_succ, Z.pow_succ_r by lia.
    replace (Z.succ (Zpos (digits2_pos m)) - 1)
      with (Z.succ (Zpos (digits2_pos m) - 1)) by lia.
    rewrite Z.pow_succ_r by lia. lia.
  - rewrite Pos2Z.inj_succ, Z.pow_succ_r by lia.
    replace (Z.succ (Zpos (digits2_pos m)) - 1)
      with (Z.succ (Zpos (digits2_pos m) - 1)) by lia.
    rewrite Z.pow_succ_r by lia. lia.
  - simpl. lia.
Qed.

(** Of two canonical mantissas, the one with the smaller exponent is the
    smaller number. *)
Lemma canonical_lt (prec emax : Z) (m1 m2 : positive) (e1 e2 : Z) :
  canonical_mantissa prec emax m1 e1 = true ->
  canonical_mantissa prec emax m2 e2 = true ->
  e1 < e2 -> Zpos m1 < Zpos m2 * 2 ^ (e2 - e1).
Proof.
  unfold canonical_mantissa, fexp. intros C1 C2 H.
  apply Z.eqb_eq in C1, C2.
  pose proof (digits2_pos_bounds m1) as [_ B1].
  pose proof (digits2_pos_bounds m2) as [B2 _].
  set (d1 := Zpos (digits2_pos m1)) in *.
  set (d2 := Zpos (digits2_pos m2)) in *.
  assert (Hd : d1 <= d2 - 1 + (e2 - e1)) by lia.
  apply Z.lt_le_trans with (2 ^ d1); [assumption |].
  apply Z.le_trans with (2 ^ (d2 - 1 + (e2 - e1))).
  - apply Z.pow_le_mono_r; lia.
  - rewrite Z.pow_add_r by (unfold d2; lia).
    apply Z.mul_le_mono_nonneg_r; [apply Z.pow_nonneg; lia | assumption].
Qed.

Lemma val_finite_compare (s1 s2 : bool) (m1 m2 : positive) (e1 e2 : Z) :
  (val (S754_finite s1 m1 e1) ?= val (S754_finite s2 m2 e2))%Q
  = if e1 <=? e2
    then (cond_Zopp s1 (Zpos m1) ?= cond_Zopp s2 (Zpos m2) * 2 ^ (e2 - e1))%Z
    else (cond_Zopp s1 (Zpos m1) * 2 ^ (e1 - e2) ?= cond_Zopp s2 (Zpos m2))%Z.
Proof.
  simpl val. destruct (e1 <=? e2) eqn:H.
  - apply Z.leb_le in H. now apply scaled_compare.
  - apply Z.leb_gt in H.
    rewrite <- Qcompare_antisym, scaled_compare by lia.
    now rewrite <- Z.compare_antisym.
Qed.

Lemma val_zero_compare_r (s : bool) (m : positive) (e : Z) :
  (0 ?= val (S754_finite s m e))%Q = if s then Gt else Lt.
Proof.
  simpl val.
  assert (E : (0 == inject_Z 0 * (2 # 1) ^ e)%Q) by ring.
  rewrite E, Qcompare_mult_r, inject_Z_compare by apply two_power_pos.
  now destruct s.
Qed.

Lemma val_zero_compare_l (s : bool) (m : positive) (e : Z) :
  (val (S754_finite s m e) ?= 0)%Q = if s then Lt else Gt.
Proof.
  rewrite <- Qcompare_antisym, val_zero_compare_r. now destruct s.
Qed.

(** On the floats of a format, [compare] is [SFcompare]. *)
Lemma compare_SFcompare (prec emax : Z) (x y : float) :
  valid_binary prec emax x = true -> valid_binary prec emax y = true ->
  compare x y = SFcompare x y.
Proof.
  destruct x as [sx | sx | | sx mx ex], y as [sy | sy | | sy my ey];
    try reflexivity;
    try (destruct sx; reflexivity);
    try (destruct sy; reflexivity);
    try (destruct sx, sy; reflexivity).
  - intros _ _. unfold compare; simpl is_nan; simpl rank; cbv iota.
    simpl orb; cbv iota. simpl Z.compare. cbv iota.
    change (val (S754_zero sx)) with 0%Q.
    now rewrite val_zero_compare_r.
  - intros _ _. unfold compare; simpl is_nan; simpl rank; cbv iota.
    simpl orb; cbv iota. simpl Z.compare. cbv iota.
    change (val (S754_zero sy)) with 0%Q.
    now rewrite val_zero_compare_l.
  - simpl valid_binary. unfold bounded. intros Vx Vy.
    apply andb_prop in Vx as [Cx _], Vy as [Cy _].
    unfold compare; simpl is_nan; simpl rank; simpl orb; cbv iota.
    simpl Z.compare; cbv iota.
    rewrite val_finite_compare. unfold SFcompare. f_equal.
    pose proof (Pos2Z.is_pos mx). pose proof (Pos2Z.is_pos my).
    destruct (Z.compare_spec ex ey) as [-> | Hlt | Hgt].
    + rewrite Z.leb_refl, Z.sub_diag, Z.pow_0_r, Z.mul_1_r.
      destruct sx, sy; reflexivity.
    + replace (ex <=? ey) with true by (symmetry; apply Z.leb_le; lia).
      pose proof (canonical_lt _ _ _ _ _ _ Cx Cy Hlt) as B.
      assert (0 < 2 ^ (ey - ex)) by (apply Z.pow_pos_nonneg; lia).
      destruct sx, sy; simpl cond_Zopp.
      * apply Z.compare_gt_iff. lia.
      * apply Z.compare_lt_iff. nia.
      * apply Z.compare_gt_iff. nia.
      * apply Z.compare_lt_iff. lia.
    + replace (ex <=? ey) with false by (symmetry; apply Z.leb_gt; lia).
      pose proof (canonical_lt _ _ _ _ _ _ Cy Cx Hgt) as B.
      assert (0 < 2 ^ (ex - ey)) by (apply Z.pow_pos_nonneg; lia).
      destruct sx, sy; simpl cond_Zopp.
      * apply Z.compare_lt_iff. lia.
      * apply Z.compare_lt_iff. nia.
      * apply Z.compare_gt_iff. nia.
      * apply Z.compare_gt_iff. lia.
Qed.

(** ** Truncation to a Python integer *)

Lemma Qtrunc_le (p q : Q) : (p <= q)%Q -> Qtrunc p <= Qtrunc q.
Proof.
  unfold Qle, Qtrunc. destruct p as [a b], q as [c d]; simpl. intros H.
  rewrite <- (Z.quot_mul_cancel_r a (Zpos b) (Zpos d)) by lia.
  rewrite <- (Z.quot_mul_cancel_r c (Zpos d) (Zpos b)) by lia.
  rewrite (Z.mul_comm (Zpos d) (Zpos b)).
  apply Z.quot_le_mono; lia.
Qed.

Lemma int_Ok_inv (x : float) (n : Z) :
  int x = Ok n -> is_nan x = false /\ rank x = 0 /\ n = Qtrunc (val x).
Proof.
  destruct x; simpl; intros H; inversion H; auto.
Qed.

(** [int] is monotone on the floats it accepts. *)
Lemma int_le (x y : float) (n m : Z) :
  int x = Ok n -> int y = Ok m -> leb x y = true -> n <= m.
Proof.
  intros Hx Hy H.
  apply int_Ok_inv in Hx as (_ & Rx & ->).
  apply int_Ok_inv in Hy as (_ & Ry & ->).
  apply leb_true_iff in H as (_ & _ & [H | [_ H]]); [lia |].
  now apply Qtrunc_le.
Qed.

(** Truncating the larger of two lengths, or taking the larger of the two
    truncations, is the same. *)
Lemma int_fmax (a b : float) (n m : Z) :
  int a = Ok n -> int b = Ok m -> int (fmax a b) = Ok (Z.max n m).
Proof.
  intros Ha Hb. unfold fmax. rewrite gtb_ltb.
  destruct (int_Ok_inv _ _ Ha) as (Na & _ & _).
  destruct (int_Ok_inv _ _ Hb) as (Nb & _ & _).
  destruct (ltb a b) eqn:Hlt.
  - rewrite Hb. f_equal.
    assert (n <= m); [| lia].
    apply (int_le _ _ _ _ Ha Hb).
    apply ltb_false_leb; auto. now apply ltb_asym.
  - rewrite Ha. f_equal.
    assert (m <= n); [| lia].
    apply (int_le _ _ _ _ Hb Ha). now apply ltb_false_leb.
Qed.

(** ** argmin and argmax *)

Section ArgExtremumSpec.

(** [beats x y]: [x] is strictly better than [y] ([x < y] for argmin,
    [x > y] for argmax). *)
Variables keeps beats : float -> float -> bool.

Hypothesis keeps_true : forall x mp,
  keeps x mp = true -> is_nan x = false /\ beats x mp = false.
Hypothesis keeps_false : forall x mp,
  keeps x mp = false -> is_nan x = false -> is_nan mp = false ->
  beats x mp = true.
Hypothesis beats_not_nan : forall x y,
  beats x y = true -> is_nan x = false /\ is_nan y = false.
Hypothesis beats_irrefl : forall x, beats x x = false.
Hypothesis beats_trans : forall x y z,
  beats x y = true -> beats y z = true -> beats x z = true.
Hypothesis eqb_beats : forall x y z,
  eqb x y = true -> beats y z = true -> beats x z = true.

Lemma arg_loop_spec (ip pre : list float) (mp : float) (k : nat) :
  is_nan mp = false ->
  extremum_at beats pre k mp ->
  exists v, extremum_at beats (pre ++ ip) (arg_loop keeps ip (length pre) mp k) v.
Proof.
  revert pre mp k.
  induction ip as [| x ip IH]; intros pre mp k Hmp [Hk Hall]; simpl.
  - exists mp. rewrite app_nil_r. now split.
  - assert (Hlen : length (pre ++ [x]) = S (length pre))
      by (rewrite length_app; simpl; lia).
    assert (Hkl : (k < length pre)%nat)
      by (apply nth_error_Some; congruence).
    replace (pre ++ x :: ip) with ((pre ++ [x]) ++ ip)
      by (now rewrite <- app_assoc).
    destruct (keeps x mp) eqn:Hkeep; simpl.
    + (* mp survives x *)
      destruct (keeps_true _ _ Hkeep) as [Hx Hb].
      rewrite <- Hlen. apply IH; auto. split.
      * rewrite nth_error_app1; auto.
      * intros j z Hj.
        destruct (Nat.lt_ge_cases j (length pre)) as [Hlt | Hge].
        -- rewrite nth_error_app1 in Hj by auto. now apply Hall.
        -- rewrite nth_error_app2 in Hj by auto.
           destruct (j - length pre)%nat as [| n] eqn:Hd; simpl in Hj.
           ++ inversion Hj; subst z. split; auto. intros _. lia.
           ++ destruct n; discriminate.
    + destruct (is_nan x) eqn:Hx.
      * (* a NaN: it is returned at once *)
        exists x. split.
        -- rewrite <- app_assoc. simpl.
           rewrite nth_error_app2 by lia.
           now rewrite Nat.sub_diag.
        -- intros j z _. split.
           ++ destruct (beats z x) eqn:Hb; auto.
              apply beats_not_nan in Hb. destruct Hb; congruence.
           ++ intros He. apply eqb_not_nan in He. destruct He; congruence.
      * (* x beats mp and becomes the running extremum *)
        pose proof (keeps_false _ _ Hkeep Hx Hmp) as Hb.
        rewrite <- Hlen. apply IH; auto. split.
        -- rewrite nth_error_app2 by lia. now rewrite Nat.sub_diag.
        -- intros j z Hj.
           destruct (Nat.lt_ge_cases j (length pre)) as [Hlt | Hge].
           ++ rewrite nth_error_app1 in Hj by auto.
              destruct (Hall _ _ Hj) as [Hz _]. split.
              ** destruct (beats z x) eqn:Hzx; auto.
                 rewrite (beats_trans _ _ _ Hzx Hb) in Hz. discriminate.
              ** intros He.
                 rewrite (eqb_beats _ _ _ He Hb) in Hz. discriminate.
           ++ split; [| intros _; lia].
              rewrite nth_error_app2 in Hj by auto.
              destruct (j - length pre)%nat as [| n] eqn:Hd; simpl in Hj.
              ** inversion Hj; subst z. apply beats_irrefl.
              ** destruct n; discriminate.
Qed.

Lemma arg_extremum_spec (a : list float) (i : nat) :
  arg_extremum keeps a = Ok i -> exists v, extremum_at beats a i v.
Proof.
  destruct a as [| x ip]; simpl; [discriminate |].
  destruct (is_nan x) eqn:Hx; intros H; inversion H; subst i; clear H.
  - exists x. split; [reflexivity |].
    intros j z _. split; [| intros _; lia].
    destruct (beats z x) eqn:Hb; auto.
    apply beats_not_nan in Hb. destruct Hb; congruence.
  - apply (arg_loop_spec ip [x] x 0%nat Hx). split; [reflexivity |].
    intros [| j] z Hj; simpl in Hj.
    + inversion Hj; subst z. split; [apply beats_irrefl | intros _; lia].
    + destruct j; discriminate.
Qed.

End ArgExtremumSpec.

Lemma arg_extremum_total (keeps : float -> float -> bool) (a : list float) :
  a <> [] -> exists i, arg_extremum keeps a = Ok i.
Proof.
  destruct a as [| x ip]; [congruence |]. intros _. simpl.
  destruct (is_nan x); eauto.
Qed.

Lemma argmin_spec (a : list float) (i : nat) :
  argmin a = Ok i -> exists v, extremum_at ltb a i v.
Proof.
  apply arg_extremum_spec.
  - intros x mp H. rewrite geb_leb in H. split.
    + now apply leb_not_nan in H.
    + now apply leb_ltb_false.
  - intros x mp H Hx Hmp. rewrite geb_leb in H. now apply leb_false_ltb.
  - apply ltb_not_nan.
  - apply ltb_irrefl.
  - apply ltb_trans.
  - apply eqb_ltb_trans.
Qed.

Lemma argmax_spec (a : list float) (i : nat) :
  argmax a = Ok i -> exists v, extremum_at (fun x y => ltb y x) a i v.
Proof.
  apply arg_extremum_spec.
  - intros x mp H. split.
    + now apply leb_not_nan in H.
    + now apply leb_ltb_false.
  - intros x mp H Hx Hmp. now apply leb_false_ltb.
  - intros x y H. apply ltb_not_nan in H. tauto.
  - apply ltb_irrefl.
  - intros x y z H1 H2. now apply ltb_trans with y.
  - intros x y z He H. apply ltb_eqb_trans with y; auto.
Qed.

(** ** The error monad *)

Lemma bind_Ok_inv {A B : Type} (r : result A) (k : A -> result B) (b : B) :
  bind r k = Ok b -> exists a, r = Ok a /\ k a = Ok b.
Proof.
  destruct r as [a | e]; simpl; [eauto | discriminate].
Qed.

Lemma getitem_Ok_iff {A : Type} (a : list A) (i : nat) (x : A) :
  getitem a i = Ok x <-> nth_error a i = Some x.
Proof.
  unfold getitem. destruct (nth_error a i); split; intros H;
    inversion H; reflexivity.
Qed.

(** Peel one [x <- r ;; k] off a hypothesis [H : ... = Ok _]. *)
Tactic Notation "bind_inv" hyp(H) ident(x) ident(Hx) :=
  apply bind_Ok_inv in H; destruct H as (x & Hx & H).

(** ** order_points *)

Lemma point_eq_dec (p q : point) : {p = q} + {p <> q}.
Proof.
  repeat decide equality.
Qed.

Lemma sum_axis1_Ok (pts : list point) (s : list float) :
  sum_axis1 pts = Ok s -> pts <> [] /\ s = map row_sum pts.
Proof.
  destruct pts as [| p pts]; simpl; [discriminate |].
  intros H; inversion H. split; [discriminate | reflexivity].
Qed.

(** An extremum of the column [map f pts], read back on the rows. *)
Lemma extremum_min_rows (f : point -> float) (pts : list point) (i : nat) (v : float) :
  extremum_at ltb (map f pts) i v ->
  exists p, first_of_ties f pts i p /\ minimal_on f pts p.
Proof.
  intros [Hi Hall]. rewrite nth_error_map in Hi.
  destruct (nth_error pts i) as [p |] eqn:Hp; [| discriminate].
  inversion Hi; subst v. exists p. split; [split; auto |].
  - intros j q Hq. apply (Hall j). rewrite nth_error_map, Hq. reflexivity.
  - intros q Hq. apply In_nth_error in Hq as [j Hj].
    destruct (Hall j (f q)) as [Hb _];
      [rewrite nth_error_map, Hj; reflexivity |].
    split; auto. intros Nq Np. now apply ltb_false_leb.
Qed.

Lemma extremum_max_rows (f : point -> float) (pts : list point) (i : nat) (v : float) :
  extremum_at (fun x y => ltb y x) (map f pts) i v ->
  exists p, first_of_ties f pts i p /\ maximal_on f pts p.
Proof.
  intros [Hi Hall]. rewrite nth_error_map in Hi.
  destruct (nth_error pts i) as [p |] eqn:Hp; [| discriminate].
  inversion Hi; subst v. exists p. split; [split; auto |].
  - intros j q Hq. apply (Hall j). rewrite nth_error_map, Hq. reflexivity.
  - intros q Hq. apply In_nth_error in Hq as [j Hj].
    destruct (Hall j (f q)) as [Hb _];
      [rewrite nth_error_map, Hj; reflexivity |].
    split; auto. intros Nq Np. now apply ltb_false_leb.
Qed.

(** What [order_points] returns when it returns: the four roles, each with
    the index it was read at. *)
Lemma order_points_spec (pts rect : list point) :
  order_points pts = Ok rect ->
  exists i0 i1 i2 i3 tl tr br bl,
    rect = [tl; tr; br; bl] /\
    first_of_ties row_sum pts i0 tl /\ minimal_on row_sum pts tl /\
    first_of_ties row_diff pts i1 tr /\ minimal_on row_diff pts tr /\
    first_of_ties row_sum pts i2 br /\ maximal_on row_sum pts br /\
    first_of_ties row_diff pts i3 bl /\ maximal_on row_diff pts bl.
Proof.
  unfold order_points. intros H.
  bind_inv H s Hs. apply sum_axis1_Ok in Hs as [_ ->].
  bind_inv H i0 H0. bind_inv H tl G0.
  bind_inv H i2 H2. bind_inv H br G2.
  bind_inv H i1 H1. bind_inv H tr G1.
  bind_inv H i3 H3. bind_inv H bl G3.
  simpl in H. inversion H; subst rect; clear H.
  apply getitem_Ok_iff in G0, G1, G2, G3.
  apply argmin_spec in H0 as [v0 H0], H1 as [v1 H1].
  apply argmax_spec in H2 as [v2 H2], H3 as [v3 H3].
  apply extremum_min_rows in H0 as (p0 & [E0 F0] & M0).
  apply extremum_min_rows in H1 as (p1 & [E1 F1] & M1).
  apply extremum_max_rows in H2 as (p2 & [E2 F2] & M2).
  apply extremum_max_rows in H3 as (p3 & [E3 F3] & M3).
  assert (p0 = tl) by congruence. assert (p1 = tr) by congruence.
  assert (p2 = br) by congruence. assert (p3 = bl) by congruence.
  subst p0 p1 p2 p3.
  exists i0, i1, i2, i3, tl, tr, br, bl.
  exact (conj eq_refl
          (conj (conj E0 F0) (conj M0
          (conj (conj E1 F1) (conj M1
          (conj (conj E2 F2) (conj M2
          (conj (conj E3 F3) M3)))))))).
Qed.

(** On a non-empty array [order_points] returns, whatever the number of
    rows. *)
Lemma order_points_total (pts : list point) :
  pts <> [] -> exists rect, order_points pts = Ok rect.
Proof.
  intros Hne. unfold order_points.
  assert (Hs : sum_axis1 pts = Ok (map row_sum pts))
    by (destruct pts; [congruence | reflexivity]).
  rewrite Hs. simpl.
  assert (Hidx : forall keeps beats (f : point -> float) i,
             arg_extremum keeps (map f pts) = Ok i ->
             (exists v, extremum_at beats (map f pts) i v) ->
             exists p, getitem pts i = Ok p).
  { intros keeps beats f i _ (v & Hv & _).
    rewrite nth_error_map in Hv.
    destruct (nth_error pts i) as [p |] eqn:Hp; [| discriminate].
    exists p. now apply getitem_Ok_iff. }
  assert (Hm : forall f : point -> float, map f pts <> [])
    by (intros f; destruct pts; [congruence | discriminate]).
  destruct (arg_extremum_total geb _ (Hm row_sum)) as [i0 H0].
  destruct (arg_extremum_total leb _ (Hm row_sum)) as [i2 H2].
  destruct (arg_extremum_total geb _ (Hm row_diff)) as [i1 H1].
  destruct (arg_extremum_total leb _ (Hm row_diff)) as [i3 H3].
  destruct (Hidx _ _ _ _ H0 (argmin_spec _ _ H0)) as [p0 G0].
  destruct (Hidx _ _ _ _ H2 (argmax_spec _ _ H2)) as [p2 G2].
  destruct (Hidx _ _ _ _ H1 (argmin_spec _ _ H1)) as [p1 G1].
  destruct (Hidx _ _ _ _ H3 (argmax_spec _ _ H3)) as [p3 G3].
  unfold argmin, argmax, diff_axis1.
  rewrite H0; simpl. rewrite G0; simpl.
  rewrite H2; simpl. rewrite G2; simpl.
  rewrite H1; simpl. rewrite G1; simpl.
  rewrite H3; simpl. rewrite G3; simpl.
  eauto.
Qed.

Lemma four_rows_nonempty (pts : list point) : length pts = 4%nat -> pts <> [].
Proof.
  destruct pts; simpl; [discriminate | congruence].
Qed.

Lemma first_of_ties_In (f : point -> float) (pts : list point) (i : nat) (v : point) :
  first_of_ties f pts i v -> In v pts.
Proof.
  intros [H _]. eapply nth_error_In; eauto.
Qed.

(** C3: for every array of four points, order_points returns the four roles
    top-left, top-right, bottom-right, bottom-left, where top-left is one of
    the points and has minimum x + y, bottom-right one with maximum x + y,
    top-right one with minimum y - x and bottom-left one with maximum
    y - x. *)
Theorem order_points_extrema (pts : list point) :
  length pts = 4%nat ->
  exists tl tr br bl,
    order_points pts = Ok [tl; tr; br; bl] /\
    In tl pts /\ minimal_on row_sum pts tl /\
    In br pts /\ maximal_on row_sum pts br /\
    In tr pts /\ minimal_on row_diff pts tr /\
    In bl pts /\ maximal_on row_diff pts bl.
Proof.
  intros Hlen.
  destruct (order_points_total pts (four_rows_nonempty _ Hlen)) as [rect H].
  destruct (order_points_spec _ _ H)
    as (i0 & i1 & i2 & i3 & tl & tr & br & bl & -> & F0 & M0 & F1 & M1
        & F2 & M2 & F3 & M3).
  exists tl, tr, br, bl.
  pose proof (first_of_ties_In _ _ _ _ F0).
  pose proof (first_of_ties_In _ _ _ _ F1).
  pose proof (first_of_ties_In _ _ _ _ F2).
  pose proof (first_of_ties_In _ _ _ _ F3).
  tauto.
Qed.

Lemma order_points_extrema_witness :
  length scenario_quad = 4%nat /\
  exists tl tr br bl,
    order_points scenario_quad = Ok [tl; tr; br; bl] /\
    In tl scenario_quad /\ minimal_on row_sum scenario_quad tl /\
    In br scenario_quad /\ maximal_on row_sum scenario_quad br /\
    In tr scenario_quad /\ minimal_on row_diff scenario_quad tr /\
    In bl scenario_quad /\ maximal_on row_diff scenario_quad bl.
Proof.
  split; [reflexivity | apply (order_points_extrema scenario_quad); reflexivity].
Defined.

(** C10: when several of the four points tie on x + y or on y - x, the role
    goes to the tying point that comes first in the input: for every array
    of four points, each role is taken by a point that is extremal on the
    role's metric (minimum x + y, minimum y - x, maximum x + y, maximum
    y - x) and is read at an index before which no point has a metric value
    equal to the chosen one's, so that among the points that tie for the
    extremum it is the one of lowest index.  The four roles are the list
    that order_points, a function of the array alone, returns. *)
Theorem order_points_first_occurrence (pts : list point) :
  length pts = 4%nat ->
  exists i0 i1 i2 i3 tl tr br bl,
    order_points pts = Ok [tl; tr; br; bl] /\
    (first_of_ties row_sum pts i0 tl /\ minimal_on row_sum pts tl) /\
    (first_of_ties row_diff pts i1 tr /\ minimal_on row_diff pts tr) /\
    (first_of_ties row_sum pts i2 br /\ maximal_on row_sum pts br) /\
    (first_of_ties row_diff pts i3 bl /\ maximal_on row_diff pts bl).
Proof.
  intros Hlen.
  destruct (order_points_total pts (four_rows_nonempty _ Hlen)) as [rect H].
  destruct (order_points_spec _ _ H)
    as (i0 & i1 & i2 & i3 & tl & tr & br & bl & -> & F0 & M0 & F1 & M1
        & F2 & M2 & F3 & M3).
  exists i0, i1, i2, i3, tl, tr, br, bl.
  exact (conj H (conj (conj F0 M0) (conj (conj F1 M1)
          (conj (conj F2 M2) (conj F3 M3))))).
Qed.

Lemma order_points_first_occurrence_witness :
  length tied_quad = 4%nat /\
  exists i0 i1 i2 i3 tl tr br bl,
    order_points tied_quad = Ok [tl; tr; br; bl] /\
    (first_of_ties row_sum tied_quad i0 tl /\ minimal_on row_sum tied_quad tl) /\
    (first_of_ties row_diff tied_quad i1 tr
     /\ minimal_on row_diff tied_quad tr) /\
    (first_of_ties row_sum tied_quad i2 br /\ maximal_on row_sum tied_quad br) /\
    (first_of_ties row_diff tied_quad i3 bl
     /\ maximal_on row_diff tied_quad bl).
Proof.
  split; [reflexivity | apply (order_points_first_occurrence tied_quad); reflexivity].
Defined.

(** ** Ordering an ordered quad again *)

(** Where different points never tie, the extremum of a sub-array that still
    holds the extremum of the whole array is that same point. *)
Lemma minimal_on_unique (f : point -> float) (pts rect : list point) (a a' : point) :
  strictly_ordered f pts -> incl rect pts ->
  In a rect -> minimal_on f pts a ->
  In a' rect -> minimal_on f rect a' ->
  a' = a.
Proof.
  intros Hso Hincl Ha Hmin Ha' Hmin'.
  destruct (point_eq_dec a' a) as [| Hne]; [assumption | exfalso].
  destruct (Hso a' a (Hincl _ Ha') (Hincl _ Ha) Hne) as [H | H].
  - destruct (Hmin a' (Hincl _ Ha')) as [H' _]. congruence.
  - destruct (Hmin' a Ha) as [H' _]. congruence.
Qed.

Lemma maximal_on_unique (f : point -> float) (pts rect : list point) (a a' : point) :
  strictly_ordered f pts -> incl rect pts ->
  In a rect -> maximal_on f pts a ->
  In a' rect -> maximal_on f rect a' ->
  a' = a.
Proof.
  intros Hso Hincl Ha Hmax Ha' Hmax'.
  destruct (point_eq_dec a' a) as [| Hne]; [assumption | exfalso].
  destruct (Hso a' a (Hincl _ Ha') (Hincl _ Ha) Hne) as [H | H].
  - destruct (Hmax' a Ha) as [H' _]. congruence.
  - destruct (Hmax a' (Hincl _ Ha')) as [H' _]. congruence.
Qed.

(** C4, as the code has it: for every four-point quad in which no two
    different points tie on x + y and no two tie on y - x, ordering the
    ordered quad again gives the ordered quad. *)
Theorem order_points_idempotent_without_ties (q : list point) :
  length q = 4%nat ->
  strictly_ordered row_sum q -> strictly_ordered row_diff q ->
  exists r, order_points q = Ok r /\ order_points r = Ok r.
Proof.
  intros Hlen Hs Hd.
  destruct (order_points_total q (four_rows_nonempty _ Hlen)) as [r Hr].
  exists r. split; [assumption |].
  destruct (order_points_spec _ _ Hr)
    as (i0 & i1 & i2 & i3 & tl & tr & br & bl & -> & F0 & M0 & F1 & M1
        & F2 & M2 & F3 & M3).
  apply first_of_ties_In in F0, F1, F2, F3.
  set (r := [tl; tr; br; bl]) in *.
  assert (Hincl : incl r q).
  { intros p [<- | [<- | [<- | [<- | []]]]]; assumption. }
  destruct (order_points_total r) as [r' Hr']; [discriminate |].
  destruct (order_points_spec _ _ Hr')
    as (j0 & j1 & j2 & j3 & tl' & tr' & br' & bl' & -> & G0 & N0 & G1 & N1
        & G2 & N2 & G3 & N3).
  apply first_of_ties_In in G0, G1, G2, G3.
  rewrite Hr'. unfold r. repeat f_equal.
  - apply (minimal_on_unique row_sum q r); auto. simpl; auto.
  - apply (minimal_on_unique row_diff q r); auto. simpl; auto.
  - apply (maximal_on_unique row_sum q r); auto. simpl; auto.
  - apply (maximal_on_unique row_diff q r); auto. simpl; auto.
Qed.

Lemma scenario_quad_strictly_ordered :
  strictly_ordered row_sum scenario_quad /\
  strictly_ordered row_diff scenario_quad.
Proof.
  split; intros p q Hp Hq Hne; simpl in Hp, Hq;
    repeat (destruct Hp as [<- | Hp]; [| try contradiction]);
    repeat (destruct Hq as [<- | Hq]; [| try contradiction]);
    try congruence; vm_compute; auto.
Defined.

Lemma order_points_idempotent_without_ties_witness :
  length scenario_quad = 4%nat /\
  strictly_ordered row_sum scenario_quad /\
  strictly_ordered row_diff scenario_quad /\
  exists r, order_points scenario_quad = Ok r /\ order_points r = Ok r.
Proof.
  split; [reflexivity |].
  split; [apply scenario_quad_strictly_ordered |].
  split; [apply scenario_quad_strictly_ordered |].
  apply (order_points_idempotent_without_ties scenario_quad);
    [reflexivity | apply scenario_quad_strictly_ordered
     | apply scenario_quad_strictly_ordered].
Defined.

(** C4 as stated fails: the four corners (3,3), (0,0), (3,6), (0,4) of a
    convex quad are pairwise different, yet ordering the ordered quad again
    changes it.  (3,3) and (0,0) tie on y - x; the first pass reads (3,3)
    as top-right because it comes first, the second pass reads (0,0). *)
Lemma order_points_not_idempotent :
  NoDup tied_quad /\
  exists r r',
    order_points tied_quad = Ok r /\ order_points r = Ok r' /\ r <> r'.
Proof.
  split.
  - unfold tied_quad.
    repeat (constructor; [simpl; vm_compute; intuition discriminate |]).
    constructor.
  - exists [pt 0 0; pt 3 3; pt 3 6; pt 0 4], [pt 0 0; pt 0 0; pt 3 6; pt 0 4].
    split; [vm_compute; reflexivity |].
    split; [vm_compute; reflexivity |].
    vm_compute. discriminate.
Qed.

(** ** Shapes *)

Lemma has_shape_repeat {A : Type} (x : A) (h w : Z) :
  0 <= h -> 0 <= w ->
  has_shape (repeat (repeat x (Z.to_nat w)) (Z.to_nat h)) h w.
Proof.
  intros Hh Hw. split.
  - unfold rows. rewrite repeat_length. lia.
  - apply Forall_forall. intros r Hr. apply repeat_spec in Hr. subst r.
    rewrite repeat_length. lia.
Qed.

Lemma has_shape_cols {A : Type} (img : list (list A)) (h w : Z) :
  has_shape img h w -> 0 < h -> cols img = w.
Proof.
  intros [Hr Hc] Hh. destruct img as [| r img]; simpl in *.
  - unfold rows in Hr. simpl in Hr. lia.
  - now inversion Hc.
Qed.

(** The reference implementation satisfies the laws. *)
Lemma Flat_laws : cv2.laws Flat.cv.
Proof.
  constructor; simpl.
  - intros src dst Hs Hd. unfold Flat.getPerspectiveTransform.
    rewrite Hs, Hd. simpl. eauto.
  - intros img M w h out. unfold Flat.warpPerspective.
    destruct (cv2.accepts_src img); simpl; [| discriminate].
    destruct (cv2.accepts_dsize (w, h)) eqn:Hd; [| discriminate].
    intros H; inversion H; subst out; clear H. simpl.
    unfold cv2.accepts_dsize in Hd. simpl in Hd.
    apply has_shape_repeat; lia.
  - intros img M dsize Hs Hd. unfold Flat.warpPerspective.
    rewrite Hs, Hd. simpl. eauto.
Qed.

(** [copyMakeBorder] with one non-negative padding on all four sides. *)
Lemma copyMakeBorder_shape (src : Image) (p h w : Z) (value : pixel) :
  0 <= p -> 0 < h -> has_shape src h w ->
  exists out, cv2.copyMakeBorder src p p p p value = Ok out /\
              has_shape out (h + 2 * p) (w + 2 * p).
Proof.
  intros Hp Hh Hs. pose proof (has_shape_cols _ _ _ Hs Hh) as Hc.
  destruct Hs as [Hr Hf]. unfold rows in Hr.
  unfold cv2.copyMakeBorder.
  replace (p <? 0) with false by (symmetry; apply Z.ltb_ge; lia).
  simpl orb. cbv iota.
  eexists. split; [reflexivity |]. split.
  - unfold rows. rewrite !length_app, length_map, !repeat_length. lia.
  - rewrite Hc.
    assert (Hw : 0 <= w).
    { destruct src as [| r src]; simpl in Hc; lia. }
    repeat rewrite Forall_app. repeat split.
    + apply Forall_forall. intros r Hin. apply repeat_spec in Hin. subst r.
      rewrite repeat_length. lia.
    + apply Forall_forall. intros r Hin. apply in_map_iff in Hin.
      destruct Hin as (r0 & <- & Hin).
      rewrite Forall_forall in Hf. specialize (Hf _ Hin).
      rewrite !length_app, !repeat_length. lia.
    + apply Forall_forall. intros r Hin. apply repeat_spec in Hin. subst r.
      rewrite repeat_length. lia.
Qed.

(** ** four_point_transform *)

Section Rectify.

Variable cv : cv2.impl.
Variable r : promotion.

(** What a successful call went through. *)
Lemma four_point_transform_inv (image : Image) (pts : list point) (out : Image) :
  four_point_transform cv r image pts = Ok out ->
  exists tl tr br bl iA iB jA jB M,
    order_points pts = Ok [tl; tr; br; bl] /\
    int (euclidean r br bl) = Ok iA /\ int (euclidean r tr tl) = Ok iB /\
    int (euclidean r tr br) = Ok jA /\ int (euclidean r tl bl) = Ok jB /\
    cv2.warpPerspective cv image M
      (Z.max (Z.max iA iB) 100, Z.max (Z.max jA jB) 100) = Ok out.
Proof.
  unfold four_point_transform. intros H.
  bind_inv H rect Hrect.
  destruct (order_points_spec _ _ Hrect)
    as (_ & _ & _ & _ & tl & tr & br & bl & -> & _).
  bind_inv H iA HiA. bind_inv H iB HiB.
  bind_inv H jA HjA. bind_inv H jB HjB.
  bind_inv H M HM.
  exists tl, tr, br, bl, iA, iB, jA, jB, M. auto 10.
Qed.

Hypothesis cv_laws : cv2.laws cv.

(** A call whose four lengths convert to integers, on a source and for a
    size OpenCV accepts, returns an image of that size. *)
Lemma four_point_transform_ok (image : Image) (pts : list point)
    (tl tr br bl : point) (iA iB jA jB : Z) :
  order_points pts = Ok [tl; tr; br; bl] ->
  int (euclidean r br bl) = Ok iA -> int (euclidean r tr tl) = Ok iB ->
  int (euclidean r tr br) = Ok jA -> int (euclidean r tl bl) = Ok jB ->
  cv2.accepts_src image = true ->
  Z.max (Z.max iA iB) 100 < 32767 -> Z.max (Z.max jA jB) 100 < 32767 ->
  exists out,
    four_point_transform cv r image pts = Ok out /\
    has_shape out (Z.max (Z.max jA jB) 100) (Z.max (Z.max iA iB) 100).
Proof.
  intros Hrect HiA HiB HjA HjB Hsrc Hw Hh.
  unfold four_point_transform.
  rewrite Hrect; simpl. rewrite HiA; simpl. rewrite HiB; simpl.
  rewrite HjA; simpl. rewrite HjB; simpl.
  match goal with
  | |- context [cv2.getPerspectiveTransform cv ?src ?dst] =>
      destruct (cv2.getPerspectiveTransform_total cv cv_laws src dst
                  eq_refl eq_refl) as [M HM]
  end.
  rewrite HM; simpl.
  set (w := Z.max (Z.max iA iB) 100) in *.
  set (h := Z.max (Z.max jA jB) 100) in *.
  destruct (cv2.warpPerspective_total cv cv_laws image M (w, h) Hsrc)
    as [out Hout].
  { unfold cv2.accepts_dsize; simpl.
    repeat (apply andb_true_intro; split);
      try apply Z.ltb_lt; unfold w, h; lia. }
  exists out. split; [assumption |].
  now apply (cv2.warpPerspective_shape cv cv_laws image M).
Qed.

End Rectify.

(** C1: whatever the image and the corner array, the image
    four_point_transform returns has at least 100 rows and every row at
    least 100 pixels. *)
Theorem rectify_min_size (cv : cv2.impl) (r : promotion) (image : Image)
    (pts : list point) (out : Image) :
  cv2.laws cv ->
  four_point_transform cv r image pts = Ok out ->
  100 <= rows out /\ 100 <= cols out /\ has_shape out (rows out) (cols out).
Proof.
  intros L H.
  destruct (four_point_transform_inv cv r _ _ _ H)
    as (tl & tr & br & bl & iA & iB & jA & jB & M & _ & _ & _ & _ & _ & HW).
  apply (cv2.warpPerspective_shape cv L) in HW.
  pose proof HW as [Hr _].
  assert (Hc := has_shape_cols _ _ _ HW). rewrite <- Hr in Hc.
  rewrite Hr, Hc by lia. split; [lia |]. split; [lia |]. exact HW.
Qed.

Lemma rectify_min_size_witness :
  cv2.laws Flat.cv /\
  exists out,
    four_point_transform Flat.cv NumPy2 (black 3 4) scenario_quad = Ok out /\
    100 <= rows out /\ 100 <= cols out /\ has_shape out (rows out) (cols out).
Proof.
  split; [exact Flat_laws |].
  eexists. split; [vm_compute; reflexivity |].
  apply (rectify_min_size Flat.cv NumPy2 (black 3 4) scenario_quad);
    [exact Flat_laws | vm_compute; reflexivity].
Defined.

(** [Spec.isqrt q] is the integer part of the square root of [q]: its
    square is at most [q], the square of the next integer is above [q]. *)
Lemma isqrt_spec (q : Q) :
  (0 <= q)%Q ->
  (inject_Z (Spec.isqrt q ^ 2) <= q)%Q /\
  (q < inject_Z ((Spec.isqrt q + 1) ^ 2))%Q.
Proof.
  intros Hq. unfold Spec.isqrt.
  assert (Hf : 0 <= Qfloor q).
  { change 0 with (Qfloor 0). now apply Qfloor_resp_le. }
  pose proof (Z.sqrt_spec _ Hf) as [Hlo Hhi].
  split.
  - apply Qle_trans with (inject_Z (Qfloor q)); [| apply Qfloor_le].
    rewrite <- Zle_Qle. lia.
  - apply Qlt_le_trans with (inject_Z (Qfloor q + 1)); [apply Qlt_floor |].
    rewrite <- Zle_Qle. lia.
Qed.

(** C2 as stated fails under NumPy 2.  The top side of [wide_quad] has the
    squared length 4232^2 + 92^2 = 4233^2 - 1, so its Euclidean length
    truncates to 4232 and the specification's width is 4232; in float32
    the root of 17918288 rounds to 4233.0, and with any implementation of
    the OpenCV interface that satisfies the laws the image returned is 4233
    wide. *)
Lemma rectify_width_above_exact :
  order_points wide_quad = Ok wide_quad /\
  Spec.width (pt 0 100) (pt 4232 192) (pt 4200 400) (pt 0 300) = 4232 /\
  forall cv up, cv2.laws cv ->
    exists out,
      four_point_transform cv (NEP50 up) (black 3 4) wide_quad = Ok out /\
      cols out = 4233.
Proof.
  assert (Hrect : order_points wide_quad = Ok wide_quad)
    by (vm_compute; reflexivity).
  split; [exact Hrect |]. split; [vm_compute; reflexivity |].
  intros cv up L.
  destruct (four_point_transform_ok cv (NEP50 up) L (black 3 4) wide_quad
              _ _ _ _ 4201 4233 210 200 Hrect)
    as (out & Hout & Hs); try (vm_compute; reflexivity).
  exists out. split; [exact Hout |].
  apply (has_shape_cols _ _ _ Hs). reflexivity.
Qed.

(** C2, as the code has it: for the ordered corners (TL, TR, BR, BL) of a
    quad, the image four_point_transform returns has for its width the
    larger of the lengths of BR-BL and TR-TL, and for its height the larger
    of the lengths of TR-BR and TL-BL, each length as the program's
    floating-point arithmetic computes it (differences in float32, squares,
    sum and root rounded in NumPy's scalar type), the larger one truncated
    to an integer and floored at 100.  On the quad (50,40), (350,30),
    (360,270), (40,280) the result is 320 wide and 240 high, which there are
    also the truncated exact lengths, and 360 by 280 once the default
    border of 20 pixels is added. *)
Theorem rectify_dimensions (cv : cv2.impl) (r : promotion) :
  cv2.laws cv ->
  (forall image pts tl tr br bl out,
      order_points pts = Ok [tl; tr; br; bl] ->
      four_point_transform cv r image pts = Ok out ->
      computed_width r tl tr br bl = Ok (cols out) /\
      computed_height r tl tr br bl = Ok (rows out)) /\
  (forall image,
      cv2.accepts_src image = true ->
      exists out bordered,
        order_points scenario_quad
          = Ok [pt 50 40; pt 350 30; pt 360 270; pt 40 280] /\
        four_point_transform cv r image scenario_quad = Ok out /\
        has_shape out 240 320 /\
        Spec.width (pt 50 40) (pt 350 30) (pt 360 270) (pt 40 280) = 320 /\
        Spec.height (pt 50 40) (pt 350 30) (pt 360 270) (pt 40 280) = 240 /\
        add_white_border out 20 = Ok bordered /\
        has_shape bordered 280 360 /\
        process_document_from_array cv r image scenario_quad false true
          = Ok bordered).
Proof.
  intros L. split.
  - intros image pts tl tr br bl out Hrect H.
    destruct (four_point_transform_inv cv r _ _ _ H)
      as (tl' & tr' & br' & bl' & iA & iB & jA & jB & M & Hrect'
          & HiA & HiB & HjA & HjB & HW).
    rewrite Hrect in Hrect'. inversion Hrect'; subst tl' tr' br' bl'.
    apply (cv2.warpPerspective_shape cv L) in HW.
    pose proof HW as [Hr _].
    assert (Hc := has_shape_cols _ _ _ HW). rewrite Hc, Hr by lia.
    unfold computed_width, computed_height, computed_side.
    rewrite (int_fmax _ _ _ _ HiA HiB), (int_fmax _ _ _ _ HjA HjB).
    split; reflexivity.
  - intros image Hsrc.
    assert (Hrect : order_points scenario_quad
                    = Ok [pt 50 40; pt 350 30; pt 360 270; pt 40 280])
      by (vm_compute; reflexivity).
    destruct (four_point_transform_ok cv r L image scenario_quad
                _ _ _ _ 320 300 240 240 Hrect)
      as (out & Hout & Hshape);
      try (destruct r; vm_compute; reflexivity); auto.
    change (has_shape out 240 320) in Hshape.
    destruct (copyMakeBorder_shape out 20 240 320 (255, 255, 255))
      as (bordered & Hb & Hbs); try lia; auto.
    change (has_shape bordered 280 360) in Hbs.
    exists out, bordered.
    split; [exact Hrect |]. split; [exact Hout |]. split; [exact Hshape |].
    split; [vm_compute; reflexivity |]. split; [vm_compute; reflexivity |].
    split; [exact Hb |]. split; [exact Hbs |].
    unfold process_document_from_array. rewrite Hout. cbn [bind].
    unfold add_white_border. rewrite Hb. reflexivity.
Qed.

Lemma rectify_dimensions_witness :
  cv2.laws Flat.cv /\
  computed_width NumPy2 (pt 50 40) (pt 350 30) (pt 360 270) (pt 40 280)
    = Ok 320 /\
  computed_height NumPy2 (pt 50 40) (pt 350 30) (pt 360 270) (pt 40 280)
    = Ok 240 /\
  exists out bordered,
    four_point_transform Flat.cv NumPy2 (black 300 400) scenario_quad = Ok out /\
    has_shape out 240 320 /\
    process_document_from_array Flat.cv NumPy2 (black 300 400) scenario_quad
      false true = Ok bordered /\
    has_shape bordered 280 360.
Proof.
  split; [exact Flat_laws |].
  split; [vm_compute; reflexivity |].
  split; [vm_compute; reflexivity |].
  destruct (rectify_dimensions Flat.cv NumPy2 Flat_laws) as [_ H].
  destruct (H (black 300 400) eq_refl)
    as (out & bordered & _ & Hout & Hs & _ & _ & _ & Hbs & Hp).
  exists out, bordered. auto.
Defined.

(** ** A quad collapsed to one point *)

Lemma sub32_diag (x : float) :
  is_finite x = true -> sub32 x x = S754_zero false.
Proof.
  destruct x as [s | s | | s m e]; simpl; intros H; try discriminate.
  - now destruct s.
  - unfold sub32, SFsub. rewrite Z.sub_diag. reflexivity.
Qed.

Lemma euclidean_diag (r : promotion) (p : point) :
  is_finite (fst p) = true -> is_finite (snd p) = true ->
  euclidean r p p = S754_zero false.
Proof.
  intros Hx Hy. unfold euclidean. rewrite (sub32_diag _ Hx), (sub32_diag _ Hy).
  destruct r; reflexivity.
Qed.

Lemma order_points_diag (p : point) :
  order_points [p; p; p; p] = Ok [p; p; p; p].
Proof.
  destruct (order_points_total [p; p; p; p]) as [rect H]; [discriminate |].
  destruct (order_points_spec _ _ H)
    as (i0 & i1 & i2 & i3 & tl & tr & br & bl & -> & F0 & _ & F1 & _
        & F2 & _ & F3 & _).
  apply first_of_ties_In in F0, F1, F2, F3.
  assert (Hin : forall q, In q [p; p; p; p] -> q = p)
    by (intros q [<- | [<- | [<- | [<- | []]]]]; reflexivity).
  rewrite H. now rewrite (Hin _ F0), (Hin _ F1), (Hin _ F2), (Hin _ F3).
Qed.

(** C9: on a source OpenCV accepts, four_point_transform applied to four
    identical points with finite coordinates returns, and the image it
    returns is 100 by 100. *)
Theorem rectify_identical_points (cv : cv2.impl) (r : promotion)
    (image : Image) (p : point) :
  cv2.laws cv ->
  cv2.accepts_src image = true ->
  is_finite (fst p) = true -> is_finite (snd p) = true ->
  exists out,
    four_point_transform cv r image [p; p; p; p] = Ok out /\
    has_shape out 100 100.
Proof.
  intros L Hsrc Hx Hy.
  pose proof (euclidean_diag r p Hx Hy) as He.
  assert (Hint : int (euclidean r p p) = Ok 0) by (rewrite He; reflexivity).
  destruct (four_point_transform_ok cv r L image [p; p; p; p] p p p p 0 0 0 0
              (order_points_diag p) Hint Hint Hint Hint Hsrc)
    as (out & Hout & Hs); try (simpl; lia).
  exists out. split; [exact Hout | exact Hs].
Qed.

Lemma rectify_identical_points_witness :
  cv2.laws Flat.cv /\
  cv2.accepts_src (black 3 4) = true /\
  is_finite (fst (pt 7 9)) = true /\ is_finite (snd (pt 7 9)) = true /\
  exists out,
    four_point_transform Flat.cv NumPy2 (black 3 4) [pt 7 9; pt 7 9; pt 7 9; pt 7 9]
      = Ok out /\
    has_shape out 100 100.
Proof.
  split; [exact Flat_laws |].
  split; [reflexivity |]. split; [reflexivity |]. split; [reflexivity |].
  apply (rectify_identical_points Flat.cv NumPy2 (black 3 4) (pt 7 9) Flat_laws);
    reflexivity.
Defined.

(** ** The number of corners *)

(** C7 as stated fails: five corners are not refused.  With any
    implementation of the OpenCV interface that satisfies the laws, the
    call returns a 200 by 200 image. *)
Lemma rectify_five_corners :
  length five_corners <> 4%nat /\
  forall cv r, cv2.laws cv ->
    exists out,
      four_point_transform cv r (black 3 4) five_corners = Ok out /\
      has_shape out 200 200.
Proof.
  split; [discriminate |].
  intros cv r L.
  assert (Hrect : order_points five_corners
                  = Ok [pt 0 0; pt 200 0; pt 200 200; pt 0 200])
    by (vm_compute; reflexivity).
  destruct (four_point_transform_ok cv r L (black 3 4) five_corners
              _ _ _ _ 200 200 200 200 Hrect)
    as (out & Hout & Hs); try (destruct r; vm_compute; reflexivity).
  exists out. split; [exact Hout | exact Hs].
Qed.

(** C7, as the code has it: four_point_transform does not count the
    corners.  On the empty list it fails, with the ValueError that
    [sum(axis=1)] raises; on any other list, of four points or not, the
    ordering step returns four of the points given. *)
Theorem rectify_corner_count (cv : cv2.impl) (r : promotion) (image : Image)
    (pts : list point) :
  match pts with
  | [] => four_point_transform cv r image pts = Raise AxisError
  | _ :: _ =>
      exists tl tr br bl,
        order_points pts = Ok [tl; tr; br; bl] /\
        In tl pts /\ In tr pts /\ In br pts /\ In bl pts
  end.
Proof.
  destruct pts as [| p pts]; [reflexivity |].
  destruct (order_points_total (p :: pts)) as [rect H]; [discriminate |].
  destruct (order_points_spec _ _ H)
    as (i0 & i1 & i2 & i3 & tl & tr & br & bl & -> & F0 & _ & F1 & _
        & F2 & _ & F3 & _).
  apply first_of_ties_In in F0, F1, F2, F3.
  exists tl, tr, br, bl. auto.
Qed.

(** ** The pipeline *)

(** C8: with enhance and add_border both false,
    process_document_from_array returns exactly what four_point_transform
    returns on the same image and corners. *)
Theorem scan_plain_is_rectify (cv : cv2.impl) (r : promotion) (image : Image)
    (corners : list point) :
  process_document_from_array cv r image corners false false
  = four_point_transform cv r image corners.
Proof.
  unfold process_document_from_array.
  destruct (four_point_transform cv r image corners); reflexivity.
Qed.

(** ** The border *)

(** C6: add_white_border with a negative padding fails, for every image. *)
Theorem add_white_border_negative (image : Image) (padding : Z) :
  padding < 0 -> add_white_border image padding = Raise cv2_error.
Proof.
  intros H. unfold add_white_border, cv2.copyMakeBorder.
  apply Z.ltb_lt in H. rewrite H. reflexivity.
Qed.

Lemma add_white_border_negative_witness :
  -1 < 0 /\ add_white_border (black 3 4) (-1) = Raise cv2_error.
Proof.
  split; [lia | apply (add_white_border_negative (black 3 4) (-1)); lia].
Defined.

(** ** Brightness and contrast *)

(** A property of the integers from [lo] on, [n] of them, from its check on
    each. *)
Lemma forallb_range (P : Z -> bool) (lo : Z) (n : nat) :
  forallb (fun k => P (lo + Z.of_nat k)) (seq 0 n) = true ->
  forall z, lo <= z < lo + Z.of_nat n -> P z = true.
Proof.
  intros H z Hz. rewrite forallb_forall in H.
  specialize (H (Z.to_nat (z - lo))).
  rewrite Z2Nat.id in H by lia.
  replace (lo + (z - lo)) with z in H by lia.
  apply H. apply in_seq. lia.
Qed.

Lemma uchar_range (v : Z) : 0 <= cv2.uchar v < 0 + Z.of_nat 256.
Proof.
  unfold cv2.uchar. change (0 + Z.of_nat 256) with 256.
  apply Z.mod_pos_bound. lia.
Qed.

(** Contrast -100 makes alpha [1 + (-100 / 100) = 0.0]: every channel goes
    to [|0 * v - 100| = 100], fused or not. *)
Lemma scale_abs_darkest (fused : bool) (indefinite : float -> Z) (v : Z) :
  cv2.scale_abs fused indefinite
    (to_float32 (SFadd 53 1024 (float64 1) (SFopp (float64 1))))
    (to_float32 (float64 (-100))) v = 100.
Proof.
  unfold cv2.scale_abs. apply Z.eqb_eq.
  refine (forallb_range
            (fun u => cv2.saturate_cast_uchar indefinite
                        (SFabs (if fused
                                then fma32 (float32 u) _ _
                                else add32 (mul32 (float32 u) _) _)) =? 100)
            0 256 _ (cv2.uchar v) (uchar_range v)).
  destruct fused; vm_compute; reflexivity.
Qed.

Lemma spec_remap_darkest (v : Z) : Spec.remap (-100) (-100) v = 0%Q.
Proof.
  destruct v; reflexivity.
Qed.

(** C5, where the code departs from it: with brightness = -100 and
    contrast = -100 the affine map is [0 * v - 100]; the specification's
    clamp sends every channel to 0, while [convertScaleAbs] takes the
    absolute value first and every channel of the result is 100. *)
Theorem enhance_document_absolute_value (cv : cv2.impl) (image enhanced : Image) :
  enhance_document cv image 0 0 = Ok enhanced ->
  enhance_document cv image (-100) (-100)
    = Ok (map (map (fun _ => (100, 100, 100))) enhanced) /\
  forall v, Spec.remap (-100) (-100) v = 0%Q.
Proof.
  intros H. split; [| exact spec_remap_darkest].
  unfold enhance_document in *.
  bind_inv H lab Hlab. rewrite Hlab. cbn [bind].
  destruct (cv2.split lab) as [[l a] b].
  bind_inv H l' Hl. rewrite Hl. cbn [bind].
  bind_inv H lab' Hm. rewrite Hm. cbn [bind].
  bind_inv H e He. rewrite He. cbn [bind].
  simpl in H. inversion H; subst e; clear H.
  change (negb (-100 =? 0) || negb (-100 =? 0)) with true. cbv iota.
  change (truediv (-100) 100) with (Ok (SFopp (float64 1))).
  change (cv2.to_double (-100)) with (Ok (float64 (-100))). cbn [bind].
  f_equal. unfold cv2.convertScaleAbs.
  apply map_ext. intros r. apply map_ext. intros [[c0 c1] c2].
  now rewrite !scale_abs_darkest.
Qed.

Lemma enhance_document_absolute_value_witness :
  enhance_document Flat.cv (black 2 2) 0 0 = Ok (black 2 2) /\
  enhance_document Flat.cv (black 2 2) (-100) (-100)
    = Ok (map (map (fun _ => (100, 100, 100))) (black 2 2)) /\
  forall v, Spec.remap (-100) (-100) v = 0%Q.
Proof.
  split; [reflexivity |].
  apply (enhance_document_absolute_value Flat.cv (black 2 2) (black 2 2)).
  reflexivity.
Defined.

(** * Further properties of scanner.py *)

(** ** The border, pixel by pixel *)



(** A padding of 0 gives the image back, pixel for pixel. *)
Theorem add_white_border_zero (image : Image) :
  add_white_border image 0 = Ok image.
Proof.
  unfold add_white_border, cv2.copyMakeBorder. simpl.
  f_equal. rewrite app_nil_r.
  rewrite <- (map_id image) at 2. apply map_ext.
  intros row. apply app_nil_r.
Qed.

(** The image sits in the middle of the bordered one: the pixel of row [i],
    column [j] is found at row [i + p], column [j + p]. *)
Theorem add_white_border_inside (image out : Image) (p : Z) (i j : nat)
    (row : list pixel) (px : pixel) :
  add_white_border image p = Ok out ->
  nth_error image i = Some row -> nth_error row j = Some px ->
  exists orow,
    nth_error out (i + Z.to_nat p) = Some orow /\
    nth_error orow (j + Z.to_nat p) = Some px.
Proof.
  unfold add_white_border, cv2.copyMakeBorder.
  destruct ((p <? 0) || (p <? 0) || (p <? 0) || (p <? 0)); [discriminate |].
  intros H Hrow Hpx. inversion H; subst out; clear H.
  exists (repeat (255, 255, 255) (Z.to_nat p) ++ row
          ++ repeat (255, 255, 255) (Z.to_nat p)).
  split.
  - rewrite nth_error_app2 by (rewrite repeat_length; lia).
    rewrite repeat_length.
    replace (i + Z.to_nat p - Z.to_nat p)%nat with i by lia.
    rewrite nth_error_app1
      by (rewrite length_map; apply nth_error_Some; congruence).
    rewrite nth_error_map, Hrow. reflexivity.
  - rewrite nth_error_app2 by (rewrite repeat_length; lia).
    rewrite repeat_length.
    replace (j + Z.to_nat p - Z.to_nat p)%nat with j by lia.
    rewrite nth_error_app1 by (apply nth_error_Some; congruence).
    exact Hpx.
Qed.

Lemma add_white_border_inside_witness :
  add_white_border [[(1, 2, 3)]] 2
    = Ok (repeat (repeat white 5) 2
          ++ [[white; white; (1, 2, 3); white; white]]
          ++ repeat (repeat white 5) 2) /\
  exists orow,
    nth_error (repeat (repeat white 5) 2
               ++ [[white; white; (1, 2, 3); white; white]]
               ++ repeat (repeat white 5) 2) (0 + Z.to_nat 2) = Some orow /\
    nth_error orow (0 + Z.to_nat 2) = Some (1, 2, 3).
Proof.
  split; [reflexivity |].
  apply (add_white_border_inside [[(1, 2, 3)]] _ 2 0 0 [(1, 2, 3)] (1, 2, 3));
    reflexivity.
Defined.

(** Around it everything is white: in the bordered version of an image of
    [h] rows and [w] columns, a pixel whose row is outside [p, p + h) or
    whose column is outside [p, p + w) is (255, 255, 255). *)
Theorem add_white_border_outside (image out : Image) (p h w : Z) (i j : nat)
    (orow : list pixel) (px : pixel) :
  has_shape image h w ->
  add_white_border image p = Ok out ->
  nth_error out i = Some orow -> nth_error orow j = Some px ->
  Z.of_nat i < p \/ p + h <= Z.of_nat i \/
  Z.of_nat j < p \/ p + w <= Z.of_nat j ->
  px = white.
Proof.
  intros [Hr Hf] H Hrow Hpx Hout. unfold rows in Hr.
  unfold add_white_border, cv2.copyMakeBorder in H.
  destruct (p <? 0) eqn:Hp; [discriminate |]. simpl in H.
  apply Z.ltb_ge in Hp.
  inversion H; subst out; clear H.
  set (blank := repeat (255, 255, 255) (Z.to_nat (p + cols image + p))) in *.
  assert (Hblank : forall k q, nth_error blank k = Some q -> q = white).
  { intros k q Hq. apply nth_error_In in Hq. now apply repeat_spec in Hq. }
  assert (Hrep : forall n k q,
             nth_error (repeat (255, 255, 255) n) k = Some q -> q = white).
  { intros n k q Hq. apply nth_error_In in Hq. now apply repeat_spec in Hq. }
  destruct (Nat.lt_ge_cases i (Z.to_nat p)) as [Hi | Hi].
  - (* a row above the image *)
    rewrite nth_error_app1 in Hrow by (rewrite repeat_length; lia).
    apply nth_error_In, repeat_spec in Hrow. subst orow. eauto.
  - rewrite nth_error_app2 in Hrow by (rewrite repeat_length; lia).
    rewrite repeat_length in Hrow.
    destruct (Nat.lt_ge_cases (i - Z.to_nat p) (length image)) as [Hi' | Hi'].
    + (* a row of the image: the column is outside *)
      rewrite nth_error_app1 in Hrow by (rewrite length_map; lia).
      rewrite nth_error_map in Hrow.
      destruct (nth_error image (i - Z.to_nat p)) as [row |] eqn:Hrow';
        [| discriminate].
      inversion Hrow; subst orow; clear Hrow.
      rewrite Forall_forall in Hf.
      pose proof (Hf _ (nth_error_In _ _ Hrow')) as Hlen.
      destruct (Nat.lt_ge_cases j (Z.to_nat p)) as [Hj | Hj].
      * rewrite nth_error_app1 in Hpx by (rewrite repeat_length; lia). eauto.
      * rewrite nth_error_app2 in Hpx by (rewrite repeat_length; lia).
        rewrite repeat_length in Hpx.
        destruct (Nat.lt_ge_cases (j - Z.to_nat p) (length row)) as [Hj' | Hj'].
        -- exfalso. lia.
        -- rewrite nth_error_app2 in Hpx by lia. eauto.
    + (* a row below the image *)
      rewrite nth_error_app2 in Hrow by (rewrite length_map; lia).
      apply nth_error_In, repeat_spec in Hrow. subst orow. eauto.
Qed.

Lemma add_white_border_outside_witness :
  has_shape [[(1, 2, 3)]] 1 1 /\
  add_white_border [[(1, 2, 3)]] 2
    = Ok (repeat (repeat white 5) 2
          ++ [[white; white; (1, 2, 3); white; white]]
          ++ repeat (repeat white 5) 2) /\
  (Z.of_nat 2 < 2 \/ 2 + 1 <= Z.of_nat 2 \/
   Z.of_nat 3 < 2 \/ 2 + 1 <= Z.of_nat 3) /\
  white = white.
Proof.
  assert (Hs : has_shape [[(1, 2, 3)]] 1 1).
  { split; [reflexivity |]. repeat constructor. }
  assert (Hc : Z.of_nat 2 < 2 \/ 2 + 1 <= Z.of_nat 2 \/
               Z.of_nat 3 < 2 \/ 2 + 1 <= Z.of_nat 3) by (simpl; lia).
  split; [exact Hs |]. split; [reflexivity |]. split; [exact Hc |].
  apply (add_white_border_outside [[(1, 2, 3)]] _ 2 1 1 2 3
           [white; white; (1, 2, 3); white; white] white Hs eq_refl);
    [reflexivity | reflexivity | exact Hc].
Defined.

(** ** The size of what the pipeline returns *)

Lemma has_shape_map {A B : Type} (f : list A -> list B) (img : list (list A))
    (h w : Z) :
  (forall r, length (f r) = length r) ->
  has_shape img h w -> has_shape (map f img) h w.
Proof.
  intros Hf [Hr Hc]. split.
  - unfold rows in *. now rewrite length_map.
  - apply Forall_forall. intros r Hin. apply in_map_iff in Hin.
    destruct Hin as (r0 & <- & Hin). rewrite Hf.
    rewrite Forall_forall in Hc. now apply Hc.
Qed.

Lemma split_shape (img : Image) (h w : Z) :
  has_shape img h w ->
  has_shape (fst (fst (cv2.split img))) h w /\
  has_shape (snd (fst (cv2.split img))) h w /\
  has_shape (snd (cv2.split img)) h w.
Proof.
  intros H. simpl.
  split; [| split]; apply has_shape_map; auto; intros r; apply length_map.
Qed.

Lemma same_size_cons (r0 r1 : list Z) (c0 c1 : channel) :
  cv2.same_size (r0 :: c0) (r1 :: c1) = true ->
  length r0 = length r1 /\ cv2.same_size c0 c1 = true.
Proof.
  unfold cv2.same_size. simpl. intros H.
  apply andb_prop in H as [Hl H]. apply andb_prop in H as [Hr H].
  apply Nat.eqb_eq in Hr. split; [assumption |].
  now rewrite Hl, H.
Qed.

Lemma merge_rows_shape (c0 c1 c2 : channel) (w : Z) :
  cv2.same_size c0 c1 = true -> cv2.same_size c0 c2 = true ->
  Forall (fun r => Z.of_nat (length r) = w) c0 ->
  length (combine (combine c0 c1) c2) = length c0 /\
  Forall (fun r => Z.of_nat (length r) = w)
    (map (fun t => cv2.zip3 (fst (fst t)) (snd (fst t)) (snd t))
         (combine (combine c0 c1) c2)).
Proof.
  revert c1 c2.
  induction c0 as [| r0 c0 IH]; intros c1 c2 H1 H2 Hf.
  - simpl. split; [reflexivity | constructor].
  - destruct c1 as [| r1 c1]; [discriminate |].
    destruct c2 as [| r2 c2]; [discriminate |].
    apply same_size_cons in H1 as [L1 H1], H2 as [L2 H2].
    inversion Hf as [| ? ? Hr0 Hf']; subst.
    destruct (IH c1 c2 H1 H2 Hf') as [Hl Hrows].
    simpl. split; [now rewrite Hl |].
    constructor; [| exact Hrows].
    unfold cv2.zip3. rewrite length_map, !length_combine. lia.
Qed.

Lemma merge_shape (c0 c1 c2 : channel) (img : Image) (h w : Z) :
  cv2.merge c0 c1 c2 = Ok img -> has_shape c0 h w -> has_shape img h w.
Proof.
  unfold cv2.merge.
  destruct (cv2.same_size c0 c1) eqn:H1; [| discriminate].
  destruct (cv2.same_size c0 c2) eqn:H2; [| discriminate].
  simpl. intros H [Hr Hf]. inversion H; subst img; clear H.
  destruct (merge_rows_shape c0 c1 c2 w H1 H2 Hf) as [Hl Hrows].
  split; [| exact Hrows].
  unfold rows in *. now rewrite length_map, Hl.
Qed.

Lemma convertScaleAbs_shape (cv : cv2.impl) (src : Image)
    (alpha beta : float) (h w : Z) :
  has_shape src h w -> has_shape (cv2.convertScaleAbs cv src alpha beta) h w.
Proof.
  intros H. apply has_shape_map; auto. intros r. apply length_map.
Qed.

Lemma enhance_document_keeps_shape (cv : cv2.impl) (image out : Image)
    (brightness contrast h w : Z) :
  enhance_laws cv ->
  has_shape image h w ->
  enhance_document cv image brightness contrast = Ok out ->
  has_shape out h w.
Proof.
  intros L Hs H. unfold enhance_document in H.
  bind_inv H lab Hlab.
  apply (cvtColor_shape cv L) with (h := h) (w := w) in Hlab; [| exact Hs].
  destruct (split_shape lab h w Hlab) as (Sl & Sa & Sb).
  destruct (cv2.split lab) as [[l a] b]. simpl in Sl, Sa, Sb.
  bind_inv H l' Hl.
  apply (clahe_apply_shape cv L) with (h := h) (w := w) in Hl; [| exact Sl].
  bind_inv H lab' Hm. apply merge_shape with (h := h) (w := w) in Hm; auto.
  bind_inv H e He.
  apply (cvtColor_shape cv L) with (h := h) (w := w) in He; [| exact Hm].
  destruct (negb (brightness =? 0) || negb (contrast =? 0)).
  - bind_inv H q Hq. bind_inv H beta Hbeta.
    inversion H; subst out; auto using convertScaleAbs_shape.
  - inversion H; subst out; auto.
Qed.

(** enhance_document never changes the size of the image, whatever the
    brightness and the contrast. *)
Theorem enhance_document_shape (cv : cv2.impl) (image out : Image)
    (brightness contrast h w : Z) :
  enhance_laws cv ->
  has_shape image h w ->
  enhance_document cv image brightness contrast = Ok out ->
  has_shape out h w.
Proof.
  apply enhance_document_keeps_shape.
Qed.

Lemma Flat_enhance_laws : enhance_laws Flat.cv.
Proof.
  constructor; simpl; intros; match goal with
  | H : Ok _ = Ok _ |- _ => inversion H; subst; assumption
  end.
Qed.

Lemma enhance_document_shape_witness :
  enhance_laws Flat.cv /\ has_shape (black 3 4) 3 4 /\
  enhance_document Flat.cv (black 3 4) 10 20
    = Ok (repeat (repeat (10, 10, 10) 4) 3) /\
  has_shape (repeat (repeat (10, 10, 10) 4) 3) 3 4.
Proof.
  assert (Hs : has_shape (black 3 4) 3 4).
  { split; [reflexivity |]. repeat constructor. }
  split; [exact Flat_enhance_laws |]. split; [exact Hs |].
  split; [vm_compute; reflexivity |].
  apply (enhance_document_shape Flat.cv (black 3 4) _ 10 20 3 4
           Flat_enhance_laws Hs).
  vm_compute; reflexivity.
Defined.

(** What process_document_from_array returns has the size of what
    four_point_transform returns on the same image and corners, plus 40 in
    each direction when the border is added; so it is never smaller than
    100 by 100, nor than 140 by 140 with the border. *)
Theorem pipeline_shape (cv : cv2.impl) (r : promotion) (image out : Image)
    (corners : list point) (enhance add_border : bool) :
  cv2.laws cv -> enhance_laws cv ->
  process_document_from_array cv r image corners enhance add_border = Ok out ->
  exists warped,
    four_point_transform cv r image corners = Ok warped /\
    100 <= rows warped /\ 100 <= cols warped /\
    let pad := if add_border then 40 else 0 in
    has_shape out (rows warped + pad) (cols warped + pad) /\
    rows out = rows warped + pad /\ cols out = cols warped + pad.
Proof.
  intros L E H. unfold process_document_from_array in H.
  bind_inv H w0 H0. exists w0. split; [exact H0 |].
  destruct (four_point_transform_inv cv r _ _ _ H0)
    as (tl & tr & br & bl & iA & iB & jA & jB & M & _ & _ & _ & _ & _ & HW).
  apply (cv2.warpPerspective_shape cv L) in HW.
  set (wd := Z.max (Z.max iA iB) 100) in *.
  set (ht := Z.max (Z.max jA jB) 100) in *.
  assert (Hwd : 100 <= wd) by (unfold wd; lia).
  assert (Hht : 100 <= ht) by (unfold ht; lia).
  pose proof HW as [Hr0 _].
  assert (Hc0 := has_shape_cols _ _ _ HW). rewrite Hr0, Hc0 by lia.
  split; [lia |]. split; [lia |].
  bind_inv H w1 H1.
  assert (S1 : has_shape w1 ht wd).
  { destruct enhance.
    - now apply (enhance_document_keeps_shape cv w0 w1 0 0 ht wd E HW).
    - now inversion H1; subst. }
  bind_inv H w2 H2. inversion H; subst out; clear H.
  destruct add_border; cbv zeta.
  - destruct (copyMakeBorder_shape w1 20 ht wd (255, 255, 255))
      as (b & Hb & Sb); try lia; auto.
    unfold add_white_border in H2. rewrite Hb in H2.
    inversion H2; subst w2; clear H2.
    change (2 * 20) with 40 in Sb.
    pose proof Sb as [Hr _].
    assert (Hc := has_shape_cols _ _ _ Sb).
    split; [exact Sb |]. split; [exact Hr | apply Hc; lia].
  - inversion H2; subst w2; clear H2.
    rewrite !Z.add_0_r.
    pose proof S1 as [Hr _].
    assert (Hc := has_shape_cols _ _ _ S1).
    split; [exact S1 |]. split; [exact Hr | apply Hc; lia].
Qed.

Lemma pipeline_shape_witness :
  cv2.laws Flat.cv /\ enhance_laws Flat.cv /\
  exists out warped,
    process_document_from_array Flat.cv NumPy2 (black 3 4) scenario_quad
      false true = Ok out /\
    four_point_transform Flat.cv NumPy2 (black 3 4) scenario_quad
      = Ok warped /\
    100 <= rows warped /\ 100 <= cols warped /\
    has_shape out (rows warped + 40) (cols warped + 40) /\
    rows out = rows warped + 40 /\ cols out = cols warped + 40.
Proof.
  split; [exact Flat_laws |]. split; [exact Flat_enhance_laws |].
  assert (Hrect : order_points scenario_quad
                  = Ok [pt 50 40; pt 350 30; pt 360 270; pt 40 280])
    by (vm_compute; reflexivity).
  destruct (four_point_transform_ok Flat.cv NumPy2 Flat_laws (black 3 4)
              scenario_quad _ _ _ _ 320 300 240 240 Hrect)
    as (w0 & Hw0 & Hs0); try (vm_compute; reflexivity).
  change (has_shape w0 240 320) in Hs0.
  destruct (copyMakeBorder_shape w0 20 240 320 (255, 255, 255))
    as (b & Hb & _); try lia; auto.
  assert (H : process_document_from_array Flat.cv NumPy2 (black 3 4)
                scenario_quad false true = Ok b).
  { unfold process_document_from_array. rewrite Hw0. cbn [bind].
    unfold add_white_border. rewrite Hb. reflexivity. }
  destruct (pipeline_shape Flat.cv NumPy2 (black 3 4) b scenario_quad
              false true Flat_laws Flat_enhance_laws H)
    as (warped & Hw & R & C & S).
  exists b, warped. split; [exact H |]. split; [exact Hw |].
  split; [exact R |]. split; [exact C |]. exact S.
Defined.

(** ** Brightness alone *)

(** With alpha = 1 and a brightness in the documented range, the affine
    map on an 8-bit channel is an integer addition: float32 holds all the
    numbers involved, fused or not. *)
Lemma scale_abs_brightness (fused : bool) (indefinite : float -> Z)
    (brightness v : Z) :
  -100 <= brightness <= 100 -> 0 <= v <= 255 ->
  cv2.scale_abs fused indefinite
    (to_float32 (SFadd 53 1024 (float64 1) (S754_zero false)))
    (to_float32 (float64 brightness)) v
  = Z.min 255 (Z.abs (v + brightness)).
Proof.
  intros Hb Hv. unfold cv2.scale_abs, cv2.uchar.
  rewrite Z.mod_small by lia. apply Z.eqb_eq.
  set (a := to_float32 (SFadd 53 1024 (float64 1) (S754_zero false))).
  set (f := fun b v : Z =>
              cv2.saturate_cast_uchar indefinite
                (SFabs (if fused
                        then fma32 (float32 v) a (to_float32 (float64 b))
                        else add32 (mul32 (float32 v) a)
                                   (to_float32 (float64 b))))
              =? Z.min 255 (Z.abs (v + b))).
  change (f brightness v = true).
  assert (Hall : forallb
                   (fun i => forallb
                      (fun k => f (-100 + Z.of_nat i) (0 + Z.of_nat k))
                      (seq 0 256))
                   (seq 0 201) = true).
  { unfold f, a. destruct fused; vm_compute; reflexivity. }
  apply (forallb_range (fun v => f brightness v) 0 256); [| simpl; lia].
  apply (forallb_range
           (fun b => forallb (fun k => f b (0 + Z.of_nat k)) (seq 0 256))
           (-100) 201 Hall).
  simpl; lia.
Qed.

(** A brightness in the documented range is a double. *)
Lemma to_double_brightness (brightness : Z) :
  -100 <= brightness <= 100 ->
  cv2.to_double brightness = Ok (float64 brightness).
Proof.
  intros Hb. unfold cv2.to_double.
  rewrite (forallb_range (fun b => is_finite (float64 b)) (-100) 201);
    [reflexivity | vm_compute; reflexivity | simpl; lia].
Qed.

(** When brightness or contrast is set, enhance_document is its default
    result put through convertScaleAbs, once alpha and beta are doubles. *)
Lemma enhance_document_affine (cv : cv2.impl) (image enhanced : Image)
    (brightness contrast : Z) :
  brightness <> 0 \/ contrast <> 0 ->
  enhance_document cv image 0 0 = Ok enhanced ->
  enhance_document cv image brightness contrast
  = (q <- truediv contrast 100 ;;
     beta <- cv2.to_double brightness ;;
     Ok (cv2.convertScaleAbs cv enhanced (SFadd 53 1024 (float64 1) q) beta)).
Proof.
  intros Hbc H. unfold enhance_document in *.
  bind_inv H lab Hlab. rewrite Hlab. cbn [bind].
  destruct (cv2.split lab) as [[l a] b].
  bind_inv H l' Hl. rewrite Hl. cbn [bind].
  bind_inv H lab' Hm. rewrite Hm. cbn [bind].
  bind_inv H e He. rewrite He. cbn [bind].
  simpl in H. inversion H; subst e; clear H.
  replace (negb (brightness =? 0) || negb (contrast =? 0)) with true;
    [reflexivity |].
  symmetry. apply orb_true_iff.
  destruct Hbc as [Hb | Hc]; [left | right];
    apply negb_true_iff; now apply Z.eqb_neq.
Qed.

(** With a contrast of 0 and a brightness b in the documented range
    [-100, 100], b not 0, enhance_document sends every 8-bit channel value
    v of its default result to min(|v + b|, 255): a positive b adds and
    saturates at 255, a negative b subtracts and mirrors at 0. *)
Theorem enhance_document_brightness (cv : cv2.impl) (image enhanced : Image)
    (brightness : Z) :
  -100 <= brightness <= 100 -> brightness <> 0 ->
  enhance_document cv image 0 0 = Ok enhanced ->
  all_channels (fun v => 0 <= v <= 255) enhanced ->
  enhance_document cv image brightness 0
  = Ok (map_channels (fun v => Z.min 255 (Z.abs (v + brightness))) enhanced).
Proof.
  intros Hb Hb0 H H8.
  rewrite (enhance_document_affine cv image enhanced brightness 0
             (or_introl Hb0) H).
  change (truediv 0 100) with (Ok (S754_zero false)).
  rewrite (to_double_brightness _ Hb). cbn [bind].
  f_equal. unfold cv2.convertScaleAbs, map_channels.
  unfold all_channels in H8. rewrite Forall_forall in H8.
  apply map_ext_in. intros row Hrow. specialize (H8 _ Hrow).
  rewrite Forall_forall in H8.
  apply map_ext_in. intros [[c0 c1] c2] Hpx.
  destruct (H8 _ Hpx) as (A0 & A1 & A2). simpl in A0, A1, A2.
  now rewrite !scale_abs_brightness by assumption.
Qed.

Lemma enhance_document_brightness_witness :
  -100 <= -40 <= 100 /\ -40 <> 0 /\
  enhance_document Flat.cv [[(0, 101, 255)]] 0 0 = Ok [[(0, 101, 255)]] /\
  all_channels (fun v => 0 <= v <= 255) [[(0, 101, 255)]] /\
  enhance_document Flat.cv [[(0, 101, 255)]] (-40) 0 = Ok [[(40, 61, 215)]].
Proof.
  assert (Hp : all_channels (fun v => 0 <= v <= 255) [[(0, 101, 255)]]).
  { repeat constructor; simpl; lia. }
  split; [lia |]. split; [lia |]. split; [reflexivity |].
  split; [exact Hp |].
  apply (enhance_document_brightness Flat.cv [[(0, 101, 255)]]
           [[(0, 101, 255)]] (-40)); [lia | lia | reflexivity | exact Hp].
Defined.

(** ** The order of the corners given *)

(** In an array free of ties the point with the least (greatest) value of a
    metric is unique. *)
Lemma minimal_on_perm (f : point -> float) (q q' : list point) (v : point) :
  Permutation q q' -> minimal_on f q' v -> minimal_on f q v.
Proof.
  intros HP H p Hp. apply H. now apply (Permutation_in _ HP).
Qed.

Lemma maximal_on_perm (f : point -> float) (q q' : list point) (v : point) :
  Permutation q q' -> maximal_on f q' v -> maximal_on f q v.
Proof.
  intros HP H p Hp. apply H. now apply (Permutation_in _ HP).
Qed.

(** For corners among which no two different points tie on x + y or on
    y - x, the order in which they are given does not matter: order_points
    returns the same ordered quad for every permutation of the array, and
    so four_point_transform the same result. *)
Theorem order_points_permutation (q q' : list point) :
  Permutation q q' -> q <> [] ->
  strictly_ordered row_sum q -> strictly_ordered row_diff q ->
  order_points q' = order_points q /\
  forall cv r image,
    four_point_transform cv r image q' = four_point_transform cv r image q.
Proof.
  intros HP Hne Hs Hd.
  assert (E : order_points q' = order_points q).
  { assert (Hne' : q' <> []).
    { intros ->. apply Permutation_sym, Permutation_nil in HP. congruence. }
    destruct (order_points_total q Hne) as [rect H].
    destruct (order_points_total q' Hne') as [rect' H'].
    destruct (order_points_spec _ _ H)
      as (i0 & i1 & i2 & i3 & tl & tr & br & bl & -> & F0 & M0 & F1 & M1
          & F2 & M2 & F3 & M3).
    destruct (order_points_spec _ _ H')
      as (j0 & j1 & j2 & j3 & tl' & tr' & br' & bl' & -> & G0 & N0 & G1 & N1
          & G2 & N2 & G3 & N3).
    apply first_of_ties_In in F0, F1, F2, F3, G0, G1, G2, G3.
    apply (Permutation_in _ (Permutation_sym HP)) in G0, G1, G2, G3.
    apply (minimal_on_perm _ _ _ _ HP) in N0, N1.
    apply (maximal_on_perm _ _ _ _ HP) in N2, N3.
    rewrite H, H'. repeat f_equal.
    - apply (minimal_on_unique row_sum q q); auto using incl_refl.
    - apply (minimal_on_unique row_diff q q); auto using incl_refl.
    - apply (maximal_on_unique row_sum q q); auto using incl_refl.
    - apply (maximal_on_unique row_diff q q); auto using incl_refl. }
  split; [exact E |].
  intros cv r image. unfold four_point_transform. now rewrite E.
Qed.

Lemma order_points_permutation_witness :
  Permutation scenario_quad [pt 360 270; pt 50 40; pt 40 280; pt 350 30] /\
  scenario_quad <> [] /\
  strictly_ordered row_sum scenario_quad /\
  strictly_ordered row_diff scenario_quad /\
  order_points [pt 360 270; pt 50 40; pt 40 280; pt 350 30]
    = order_points scenario_quad /\
  forall cv r image,
    four_point_transform cv r image
      [pt 360 270; pt 50 40; pt 40 280; pt 350 30]
    = four_point_transform cv r image scenario_quad.
Proof.
  assert (HP : Permutation scenario_quad
                 [pt 360 270; pt 50 40; pt 40 280; pt 350 30]).
  { unfold scenario_quad.
    apply perm_trans with [pt 50 40; pt 360 270; pt 350 30; pt 40 280].
    - apply perm_skip. apply perm_trans with [pt 360 270; pt 350 30; pt 40 280].
      + apply perm_swap.
      + apply Permutation_refl.
    - apply perm_trans with [pt 360 270; pt 50 40; pt 350 30; pt 40 280].
      + apply perm_swap.
      + do 2 apply perm_skip. apply perm_swap. }
  assert (Hne : scenario_quad <> []) by discriminate.
  split; [exact HP |]. split; [exact Hne |].
  split; [apply scenario_quad_strictly_ordered |].
  split; [apply scenario_quad_strictly_ordered |].
  apply (order_points_permutation scenario_quad _ HP Hne);
    apply scenario_quad_strictly_ordered.
Defined.

(** ** A NaN among the coordinates *)

Lemma shr_1_nonneg (mrs : shr_record) :
  0 <= shr_m mrs -> 0 <= shr_m (shr_1 mrs).
Proof.
  destruct mrs as [m r s]. simpl.
  destruct m as [| [p | p |] | p]; simpl; lia.
Qed.

Lemma iter_pos_shr_1_nonneg (p : positive) (mrs : shr_record) :
  0 <= shr_m mrs -> 0 <= shr_m (iter_pos shr_1 p mrs).
Proof.
  revert mrs. induction p as [p IH | p IH |]; intros mrs H; simpl.
  - apply IH, IH. now apply shr_1_nonneg.
  - now apply IH, IH.
  - now apply shr_1_nonneg.
Qed.

Lemma shr_fexp_nonneg (prec emax m e : Z) (l : location) :
  0 <= m -> 0 <= shr_m (fst (shr_fexp prec emax m e l)).
Proof.
  intros H. unfold shr_fexp, shr.
  assert (H0 : 0 <= shr_m (shr_record_of_loc m l))
    by (destruct l as [| []]; exact H).
  destruct (fexp prec emax (Zdigits2 m + e) - e); simpl; auto.
  now apply iter_pos_shr_1_nonneg.
Qed.

Lemma round_nearest_even_nonneg (mx : Z) (lx : location) :
  0 <= mx -> 0 <= round_nearest_even mx lx.
Proof.
  intros H. unfold round_nearest_even.
  destruct lx as [| []]; try destruct (Z.even mx); lia.
Qed.

Lemma binary_round_aux_not_nan (prec emax : Z) (sx : bool) (mx ex : Z)
    (lx : location) :
  0 <= mx -> is_nan (binary_round_aux prec emax sx mx ex lx) = false.
Proof.
  intros H. unfold binary_round_aux.
  pose proof (shr_fexp_nonneg prec emax mx ex lx H) as H1.
  destruct (shr_fexp prec emax mx ex lx) as [mrs' e']. simpl in H1.
  pose proof (round_nearest_even_nonneg (shr_m mrs')
                (loc_of_shr_record mrs') H1) as H2.
  pose proof (shr_fexp_nonneg prec emax _ e' loc_Exact H2) as H3.
  destruct (shr_fexp prec emax
              (round_nearest_even (shr_m mrs') (loc_of_shr_record mrs'))
              e' loc_Exact) as [mrs'' e'']. simpl in H3.
  destruct (shr_m mrs''); try reflexivity; [| lia].
  now destruct (e'' <=? emax - prec).
Qed.

(** Rounding an integer times a power of two never makes a NaN. *)
Lemma binary_normalize_not_nan (prec emax m e : Z) (szero : bool) :
  is_nan (binary_normalize prec emax m e szero) = false.
Proof.
  destruct m as [| p | p]; simpl; [reflexivity | |];
    unfold binary_round;
    destruct (shl_align p e (fexp prec emax (Z.pos (digits2_pos p) + e)));
    now apply binary_round_aux_not_nan.
Qed.

(** A sum is NaN only for a NaN operand or for infinities of opposite
    signs; a difference only for a NaN operand or infinities of one sign. *)
Lemma add32_nan (x y : float) :
  is_nan (add32 x y) = true ->
  is_nan x = true \/ is_nan y = true \/
  exists s, x = S754_infinity s /\ y = S754_infinity (negb s).
Proof.
  destruct x as [sx | sx | | sx mx ex], y as [sy | sy | | sy my ey];
    try (unfold add32, SFadd; intros H;
         rewrite binary_normalize_not_nan in H; discriminate);
    unfold add32; simpl; auto; try discriminate;
    destruct sx, sy; simpl; try discriminate; eauto.
Qed.

Lemma sub32_nan (x y : float) :
  is_nan (sub32 x y) = true ->
  is_nan x = true \/ is_nan y = true \/
  exists s, x = S754_infinity s /\ y = S754_infinity s.
Proof.
  destruct x as [sx | sx | | sx mx ex], y as [sy | sy | | sy my ey];
    try (unfold sub32, SFsub; intros H;
         rewrite binary_normalize_not_nan in H; discriminate);
    unfold sub32; simpl; auto; try discriminate;
    destruct sx, sy; simpl; try discriminate; eauto.
Qed.

Lemma sub32_nan_l (x y : float) : is_nan x = true -> sub32 x y = S754_nan.
Proof.
  destruct x; try discriminate. reflexivity.
Qed.

Lemma sub32_nan_r (x y : float) : is_nan y = true -> sub32 x y = S754_nan.
Proof.
  destruct y; try discriminate. now destruct x.
Qed.

(** A NaN difference in either coordinate makes the length a NaN. *)
Lemma euclidean_nan (r : promotion) (p q : point) :
  sub32 (fst p) (fst q) = S754_nan \/ sub32 (snd p) (snd q) = S754_nan ->
  euclidean r p q = S754_nan.
Proof.
  assert (Hsq : square r S754_nan = S754_nan) by (destruct r; reflexivity).
  assert (Hadd : forall P E x, SFadd P E x S754_nan = S754_nan)
    by (intros P E x; now destruct x).
  unfold euclidean. intros [H | H]; rewrite H, Hsq; [reflexivity |].
  now rewrite Hadd.
Qed.

(** The length between a point whose x + y is NaN and one whose y - x is
    NaN is a NaN. *)
Lemma euclidean_nan_metrics (r : promotion) (p q : point) :
  is_nan (row_sum p) = true -> is_nan (row_diff q) = true ->
  euclidean r p q = S754_nan.
Proof.
  destruct p as [a b], q as [c d]. unfold row_sum, row_diff. simpl.
  intros Hs Hd. apply euclidean_nan. simpl.
  apply add32_nan in Hs. apply sub32_nan in Hd.
  destruct Hs as [Ha | [Hb | (s & -> & ->)]];
    [left; now apply sub32_nan_l | right; now apply sub32_nan_l |].
  destruct Hd as [Hd' | [Hc | (t & -> & ->)]];
    [right; now apply sub32_nan_r | left; now apply sub32_nan_r |].
  destruct s, t; simpl; auto.
Qed.

(** argmin and argmax propagate NaNs: if the array holds one, the index
    returned is that of a NaN. *)
Lemma arg_loop_nan (keeps : float -> float -> bool) :
  (forall x mp, keeps x mp = true -> is_nan x = false) ->
  forall ip pre mp ind,
    Exists (fun z => is_nan z = true) ip ->
    exists v,
      nth_error (pre ++ ip) (arg_loop keeps ip (length pre) mp ind) = Some v /\
      is_nan v = true.
Proof.
  intros Hk. induction ip as [| x ip IH]; intros pre mp ind Hex.
  - inversion Hex.
  - assert (Hlen : length (pre ++ [x]) = S (length pre))
      by (rewrite length_app; simpl; lia).
    simpl. destruct (keeps x mp) eqn:Hkeep; simpl.
    + inversion Hex as [? ? Hx | ? ? Hex']; subst.
      * apply Hk in Hkeep. congruence.
      * destruct (IH (pre ++ [x]) mp ind Hex') as (v & Hv & Hn).
        rewrite Hlen, <- app_assoc in Hv. eauto.
    + destruct (is_nan x) eqn:Hx.
      * exists x. split; [| assumption].
        rewrite nth_error_app2 by lia. now rewrite Nat.sub_diag.
      * inversion Hex as [? ? Hx' | ? ? Hex']; subst; [congruence |].
        destruct (IH (pre ++ [x]) x (length pre) Hex') as (v & Hv & Hn).
        rewrite Hlen, <- app_assoc in Hv. eauto.
Qed.

Lemma arg_extremum_nan (keeps : float -> float -> bool) (a : list float)
    (i : nat) :
  (forall x mp, keeps x mp = true -> is_nan x = false) ->
  Exists (fun z => is_nan z = true) a ->
  arg_extremum keeps a = Ok i ->
  exists v, nth_error a i = Some v /\ is_nan v = true.
Proof.
  intros Hk Hex. destruct a as [| x ip]; [inversion Hex |]. simpl.
  destruct (is_nan x) eqn:Hx; intros H; inversion H; subst i; clear H.
  - exists x. now split.
  - inversion Hex as [? ? Hx' | ? ? Hex']; subst; [congruence |].
    apply (arg_loop_nan keeps Hk ip [x] x 0%nat Hex').
Qed.

Lemma argmax_nan (a : list float) (i : nat) :
  Exists (fun z => is_nan z = true) a -> argmax a = Ok i ->
  exists v, nth_error a i = Some v /\ is_nan v = true.
Proof.
  apply arg_extremum_nan. intros x mp H. now apply leb_not_nan in H.
Qed.

(** If a coordinate of one of the corners is a NaN, four_point_transform
    raises ValueError, at the first [int()], whatever the other corners
    and the image. *)
Theorem rectify_nan_coordinate (cv : cv2.impl) (r : promotion) (image : Image)
    (pts : list point) (p : point) :
  In p pts -> is_nan (fst p) || is_nan (snd p) = true ->
  four_point_transform cv r image pts = Raise ValueError.
Proof.
  intros Hin Hnan.
  assert (Hs : is_nan (row_sum p) = true).
  { destruct p as [a b]. unfold row_sum. simpl in *.
    destruct a, b; try reflexivity; discriminate. }
  assert (Hd : is_nan (row_diff p) = true).
  { destruct p as [a b]. unfold row_diff. simpl in *.
    destruct a, b; try reflexivity; discriminate. }
  assert (Hne : pts <> []) by (intros ->; inversion Hin).
  assert (Hex : forall f : point -> float, is_nan (f p) = true ->
                  Exists (fun z => is_nan z = true) (map f pts)).
  { intros f Hf. apply Exists_exists. exists (f p). split; [| assumption].
    now apply in_map. }
  unfold four_point_transform, order_points.
  replace (sum_axis1 pts) with (Ok (map row_sum pts))
    by (destruct pts; [congruence | reflexivity]).
  cbn [bind]. unfold diff_axis1.
  destruct (argmin (map row_sum pts)) as [i0 | e] eqn:A0;
    [| destruct (arg_extremum_total geb (map row_sum pts)) as [? A];
       [now destruct pts | unfold argmin in A0; congruence]].
  cbn [bind].
  destruct (getitem pts i0) as [tl | e] eqn:G0;
    [| exfalso; apply argmin_spec in A0 as (v & Hv & _);
       rewrite nth_error_map in Hv; unfold getitem in G0;
       destruct (nth_error pts i0); discriminate].
  cbn [bind].
  destruct (argmax (map row_sum pts)) as [i2 | e] eqn:A2;
    [| destruct (arg_extremum_total leb (map row_sum pts)) as [? A];
       [now destruct pts | unfold argmax in A2; congruence]].
  destruct (argmax_nan _ _ (Hex row_sum Hs) A2) as (v2 & Hv2 & N2).
  rewrite nth_error_map in Hv2.
  destruct (nth_error pts i2) as [br |] eqn:Hbr; [| discriminate].
  inversion Hv2; subst v2; clear Hv2.
  cbn [bind]. unfold getitem at 1. rewrite Hbr. cbn [bind].
  destruct (argmin (map row_diff pts)) as [i1 | e] eqn:A1;
    [| destruct (arg_extremum_total geb (map row_diff pts)) as [? A];
       [now destruct pts | unfold argmin in A1; congruence]].
  cbn [bind].
  destruct (getitem pts i1) as [tr | e] eqn:G1;
    [| exfalso; apply argmin_spec in A1 as (v & Hv & _);
       rewrite nth_error_map in Hv; unfold getitem in G1;
       destruct (nth_error pts i1); discriminate].
  cbn [bind].
  destruct (argmax (map row_diff pts)) as [i3 | e] eqn:A3;
    [| destruct (arg_extremum_total leb (map row_diff pts)) as [? A];
       [now destruct pts | unfold argmax in A3; congruence]].
  destruct (argmax_nan _ _ (Hex row_diff Hd) A3) as (v3 & Hv3 & N3).
  rewrite nth_error_map in Hv3.
  destruct (nth_error pts i3) as [bl |] eqn:Hbl; [| discriminate].
  inversion Hv3; subst v3; clear Hv3.
  cbn [bind]. unfold getitem at 1. rewrite Hbl. cbn [bind].
  simpl setitem. cbv iota.
  rewrite (euclidean_nan_metrics r br bl N2 N3). reflexivity.
Qed.

Lemma rectify_nan_coordinate_witness :
  In (S754_nan, float32 3) [pt 0 0; (S754_nan, float32 3); pt 5 5; pt 0 4] /\
  is_nan (fst (S754_nan, float32 3)) || is_nan (snd (S754_nan, float32 3))
    = true /\
  four_point_transform Flat.cv NumPy2 (black 3 4)
    [pt 0 0; (S754_nan, float32 3); pt 5 5; pt 0 4] = Raise ValueError.
Proof.
  assert (Hin : In (S754_nan, float32 3)
                  [pt 0 0; (S754_nan, float32 3); pt 5 5; pt 0 4])
    by (right; left; reflexivity).
  split; [exact Hin |]. split; [reflexivity |].
  apply (rectify_nan_coordinate Flat.cv NumPy2 (black 3 4) _ _ Hin).
  reflexivity.
Defined.

(** ** When four_point_transform fails, and when it cannot *)

Lemma int_Raise_inv (x : float) (e : exn) :
  int x = Raise e ->
  (e = ValueError /\ is_nan x = true) \/
  (e = OverflowError /\ is_nan x = false /\ is_finite x = false).
Proof.
  destruct x; simpl; intros H; inversion H; auto.
Qed.

(** The failures of four_point_transform are these and no others: the
    AxisError of an empty corner list; the ValueError of [int()] on a side
    length that is a NaN; the OverflowError of [int()] on an infinite side
    length; and whatever the resampler raises, which is then asked for a
    destination of at least 100 by 100. *)
Theorem rectify_failures (cv : cv2.impl) (r : promotion) (image : Image)
    (pts : list point) (e : exn) :
  cv2.laws cv ->
  four_point_transform cv r image pts = Raise e ->
  (pts = [] /\ e = AxisError) \/
  exists tl tr br bl,
    order_points pts = Ok [tl; tr; br; bl] /\
    ((e = ValueError /\
      Exists (fun d => is_nan d = true) (side_lengths r tl tr br bl)) \/
     (e = OverflowError /\
      Exists (fun d => is_nan d = false /\ is_finite d = false)
        (side_lengths r tl tr br bl)) \/
     (exists M w h,
        100 <= w /\ 100 <= h /\
        cv2.warpPerspective cv image M (w, h) = Raise e)).
Proof.
  intros L H.
  destruct pts as [| p pts]; [left; split; [reflexivity |] |].
  { unfold four_point_transform in H. simpl in H. now inversion H. }
  right.
  destruct (order_points_total (p :: pts)) as [rect Hrect]; [discriminate |].
  destruct (order_points_spec _ _ Hrect)
    as (_ & _ & _ & _ & tl & tr & br & bl & -> & _).
  exists tl, tr, br, bl. split; [exact Hrect |].
  unfold four_point_transform in H. rewrite Hrect in H. cbn [bind] in H.
  unfold side_lengths.
  assert (Hint : forall d, In d (side_lengths r tl tr br bl) ->
                 int d = Raise e ->
                 (e = ValueError /\
                  Exists (fun d => is_nan d = true)
                    (side_lengths r tl tr br bl)) \/
                 (e = OverflowError /\
                  Exists (fun d => is_nan d = false /\ is_finite d = false)
                    (side_lengths r tl tr br bl))).
  { intros d Hd Hi. apply int_Raise_inv in Hi as [[-> Hn] | [-> Hn]];
      [left | right]; (split; [reflexivity |]);
      apply Exists_exists; exists d; auto. }
  assert (Hor : forall A B C : Prop, A \/ B -> A \/ B \/ C) by tauto.
  destruct (int (euclidean r br bl)) as [iA | e0] eqn:HiA;
    [| inversion H; subst e0; apply Hor, (Hint _ (or_introl eq_refl) HiA)].
  cbn [bind] in H.
  destruct (int (euclidean r tr tl)) as [iB | e0] eqn:HiB;
    [| inversion H; subst e0;
       apply Hor, (Hint _ (or_intror (or_introl eq_refl)) HiB)].
  cbn [bind] in H.
  destruct (int (euclidean r tr br)) as [jA | e0] eqn:HjA;
    [| inversion H; subst e0;
       apply Hor, (Hint _ (or_intror (or_intror (or_introl eq_refl))) HjA)].
  cbn [bind] in H.
  destruct (int (euclidean r tl bl)) as [jB | e0] eqn:HjB;
    [| inversion H; subst e0;
       apply Hor,
         (Hint _ (or_intror (or_intror (or_intror (or_introl eq_refl)))) HjB)].
  cbn [bind] in H.
  match type of H with
  | context [cv2.getPerspectiveTransform cv ?src ?dst] =>
      destruct (cv2.getPerspectiveTransform_total cv L src dst
                  eq_refl eq_refl) as [M HM]
  end.
  rewrite HM in H. cbn [bind] in H.
  right. right.
  exists M, (Z.max (Z.max iA iB) 100), (Z.max (Z.max jA jB) 100).
  split; [lia |]. split; [lia | exact H].
Qed.

Lemma rectify_failures_witness :
  cv2.laws Flat.cv /\
  four_point_transform Flat.cv NumPy2 (black 3 4)
    [pt 0 0; (S754_infinity false, float32 3); pt 5 5; pt 0 4]
    = Raise OverflowError /\
  exists tl tr br bl,
    order_points [pt 0 0; (S754_infinity false, float32 3); pt 5 5; pt 0 4]
      = Ok [tl; tr; br; bl] /\
    Exists (fun d => is_nan d = false /\ is_finite d = false)
      (side_lengths NumPy2 tl tr br bl).
Proof.
  split; [exact Flat_laws |].
  assert (H : four_point_transform Flat.cv NumPy2 (black 3 4)
                [pt 0 0; (S754_infinity false, float32 3); pt 5 5; pt 0 4]
              = Raise OverflowError) by (vm_compute; reflexivity).
  split; [exact H |].
  destruct (rectify_failures Flat.cv NumPy2 _ _ _ Flat_laws H)
    as [[E _] | (tl & tr & br & bl & Hr & [[E _] | [[_ Hex] | Hw]])].
  - discriminate.
  - discriminate.
  - exists tl, tr, br, bl. split; [exact Hr | exact Hex].
  - exfalso. destruct Hw as (M & w & h & Hw & Hh & Hwarp).
    simpl in Hwarp. unfold Flat.warpPerspective in Hwarp.
    destruct (cv2.accepts_src (black 3 4) && cv2.accepts_dsize (w, h));
      discriminate.
Defined.

(** On a source OpenCV accepts, four_point_transform returns as soon as
    the four side lengths of the quad it has ordered convert to integers
    below 32767. *)
Theorem rectify_succeeds (cv : cv2.impl) (r : promotion) (image : Image)
    (pts : list point) (tl tr br bl : point) :
  cv2.laws cv -> cv2.accepts_src image = true ->
  order_points pts = Ok [tl; tr; br; bl] ->
  Forall (fun d => exists n, int d = Ok n /\ n < 32767)
    (side_lengths r tl tr br bl) ->
  exists out, four_point_transform cv r image pts = Ok out.
Proof.
  intros L Hsrc Hrect Hall. unfold side_lengths in Hall.
  inversion Hall as [| ? ? (iA & HiA & BA) Hall1]; subst.
  inversion Hall1 as [| ? ? (iB & HiB & BB) Hall2]; subst.
  inversion Hall2 as [| ? ? (jA & HjA & CA) Hall3]; subst.
  inversion Hall3 as [| ? ? (jB & HjB & CB) _]; subst.
  destruct (four_point_transform_ok cv r L image pts tl tr br bl
              iA iB jA jB Hrect HiA HiB HjA HjB Hsrc)
    as (out & Hout & _); try lia.
  eauto.
Qed.

Lemma rectify_succeeds_witness :
  cv2.laws Flat.cv /\ cv2.accepts_src (black 3 4) = true /\
  order_points scenario_quad
    = Ok [pt 50 40; pt 350 30; pt 360 270; pt 40 280] /\
  Forall (fun d => exists n, int d = Ok n /\ n < 32767)
    (side_lengths NumPy2 (pt 50 40) (pt 350 30) (pt 360 270) (pt 40 280)) /\
  exists out,
    four_point_transform Flat.cv NumPy2 (black 3 4) scenario_quad = Ok out.
Proof.
  assert (Hr : order_points scenario_quad
               = Ok [pt 50 40; pt 350 30; pt 360 270; pt 40 280])
    by (vm_compute; reflexivity).
  assert (Hall : Forall (fun d => exists n, int d = Ok n /\ n < 32767)
                   (side_lengths NumPy2 (pt 50 40) (pt 350 30) (pt 360 270)
                      (pt 40 280))).
  { unfold side_lengths.
    constructor; [exists 320; split; [vm_compute; reflexivity | lia] |].
    constructor; [exists 300; split; [vm_compute; reflexivity | lia] |].
    constructor; [exists 240; split; [vm_compute; reflexivity | lia] |].
    constructor; [exists 240; split; [vm_compute; reflexivity | lia] |].
    constructor. }
  split; [exact Flat_laws |]. split; [reflexivity |]. split; [exact Hr |].
  split; [exact Hall |].
  apply (rectify_succeeds Flat.cv NumPy2 (black 3 4) scenario_quad
           _ _ _ _ Flat_laws eq_refl Hr Hall).
Defined.

(** ** process_document *)

(** process_document is process_document_from_array on the image read from
    [image_path]: it raises ValueError when the file cannot be read, raises
    what the pipeline raises, and in both cases leaves the files as they
    were; otherwise it returns the pipeline's image, after writing it when
    an output path is given. *)
Theorem process_document_pipeline (cv : cv2.impl) (r : promotion) (fs : Type)
    (imread : fs -> str -> option Image)
    (imwrite : fs -> str -> Image -> list Z -> result bool * fs)
    (image_path : str) (corners : list point) (output_path : option str)
    (enhance add_border : bool) (st : fs) :
  process_document cv r fs imread imwrite image_path corners output_path
    enhance add_border st
  = match imread st image_path with
    | None => (Raise ValueError, st)
    | Some image =>
        match process_document_from_array cv r image corners enhance
                add_border with
        | Raise e => (Raise e, st)
        | Ok out =>
            match output_path with
            | Some (c :: path) =>
                match imwrite st (c :: path) out [IMWRITE_JPEG_QUALITY; 95] with
                | (Ok _, st') => (Ok out, st')
                | (Raise e, st') => (Raise e, st')
                end
            | _ => (Ok out, st)
            end
        end
    end.
Proof.
  unfold process_document, process_document_from_array, io_bind, io_lift,
    io_ret.
  destruct (imread st image_path) as [image |]; [| reflexivity].
  destruct (four_point_transform cv r image corners) as [w0 | e];
    [| reflexivity].
  cbn [bind].
  destruct (if enhance then enhance_document cv w0 0 0 else Ok w0)
    as [w1 | e]; [| reflexivity].
  cbn [bind].
  destruct (if add_border then add_white_border w1 20 else Ok w1)
    as [w2 | e]; [| reflexivity].
  cbn [bind].
  destruct output_path as [[| c path] |]; try reflexivity.
Qed.

(** ** allowed_file *)

Section AllowedFileSpec.

Import server.

Variable lower : str -> str.

Lemma contains_In (c : N) (s : str) : contains c s = true <-> In c s.
Proof.
  unfold contains. rewrite existsb_exists. split.
  - intros (x & Hx & E). apply N.eqb_eq in E. now subst.
  - intros H. exists c. split; [assumption | apply N.eqb_refl].
Qed.

Lemma partition_first_app (c : N) (a b : str) :
  ~ In c a -> partition_first c (a ++ c :: b) = Some (a, b).
Proof.
  induction a as [| x a IH]; intros H; simpl.
  - now rewrite N.eqb_refl.
  - destruct (N.eqb_spec x c) as [-> | Hne].
    + exfalso. apply H. now left.
    + rewrite IH; [reflexivity |]. intros Hin. apply H. now right.
Qed.

Lemma partition_first_Some (c : N) (s a b : str) :
  partition_first c s = Some (a, b) -> s = a ++ c :: b /\ ~ In c a.
Proof.
  revert a b. induction s as [| x s IH]; intros a b; simpl; [discriminate |].
  destruct (N.eqb_spec x c) as [-> | Hne].
  - intros H; inversion H; subst. split; [reflexivity | intros []].
  - destruct (partition_first c s) as [[a' b'] |]; [| discriminate].
    intros H; inversion H; subst.
    destruct (IH a' b eq_refl) as [-> Hn]. split; [reflexivity |].
    intros [E | Hin]; [congruence | contradiction].
Qed.

Lemma partition_first_None (c : N) (s : str) :
  partition_first c s = None -> ~ In c s.
Proof.
  induction s as [| x s IH]; simpl; [intros _ [] |].
  destruct (N.eqb_spec x c) as [-> | Hne]; [discriminate |].
  destruct (partition_first c s) as [[a b] |]; [discriminate |].
  intros _ [E | Hin]; [congruence | now apply IH].
Qed.

(** Splitting at the last dot. *)
Lemma rsplit1_last (c : N) (stem ext : str) :
  ~ In c ext -> rsplit1 c (stem ++ c :: ext) = [stem; ext].
Proof.
  intros H. unfold rsplit1.
  rewrite rev_app_distr. simpl. rewrite <- app_assoc. simpl.
  rewrite partition_first_app by (now rewrite <- in_rev).
  now rewrite !rev_involutive.
Qed.

Lemma allowed_file_last_dot (stem ext : str) :
  ~ In dot ext ->
  allowed_file lower (stem ++ dot :: ext)
  = Ok (existsb (str_eqb (lower ext)) ALLOWED_EXTENSIONS).
Proof.
  intros H. unfold allowed_file.
  replace (contains dot (stem ++ dot :: ext)) with true.
  - now rewrite (rsplit1_last dot stem ext H).
  - symmetry. apply contains_In, in_or_app. right. now left.
Qed.

Lemma has_last_dot (s : str) :
  In dot s -> exists stem ext, s = stem ++ dot :: ext /\ ~ In dot ext.
Proof.
  intros H. rewrite in_rev in H.
  destruct (partition_first dot (rev s)) as [[a b] |] eqn:P.
  - apply partition_first_Some in P as [E Hn].
    exists (rev b), (rev a). split; [| now rewrite <- in_rev].
    rewrite <- (rev_involutive s), E, rev_app_distr. simpl.
    now rewrite <- app_assoc.
  - now apply partition_first_None in P.
Qed.

End AllowedFileSpec.

(** allowed_file never raises, and it answers True exactly for the names
    that have a dot and whose text after the last dot, lower-cased, is one
    of png, jpg, jpeg, bmp, webp, tiff. *)
Theorem allowed_file_verdict (lower : str -> str) (filename : str) :
  (exists b, server.allowed_file lower filename = Ok b) /\
  (server.allowed_file lower filename = Ok true <->
   exists stem ext,
     filename = stem ++ server.dot :: ext /\ ~ In server.dot ext /\
     existsb (str_eqb (lower ext)) server.ALLOWED_EXTENSIONS = true).
Proof.
  destruct (server.contains server.dot filename) eqn:C.
  - apply contains_In, has_last_dot in C as (stem & ext & -> & Hn).
    rewrite (allowed_file_last_dot lower stem ext Hn).
    split; [eauto |]. split.
    + intros H. inversion H. exists stem, ext. auto.
    + intros (stem' & ext' & E & Hn' & Hm).
      assert (ext' = ext); [| subst; now rewrite Hm].
      pose proof (rsplit1_last server.dot stem ext Hn) as R1.
      pose proof (rsplit1_last server.dot stem' ext' Hn') as R2.
      rewrite <- E in R2. congruence.
  - unfold server.allowed_file. rewrite C. split; [eauto |]. split.
    + discriminate.
    + intros (stem & ext & -> & _).
      assert (server.contains server.dot (stem ++ server.dot :: ext) = true)
        by (apply contains_In, in_or_app; right; now left).
      congruence.
Qed.

(** Whatever mix of upper and lower case an ASCII extension is written in,
    a name whose text after the last dot spells one of the six allowed
    extensions is accepted. *)
Theorem allowed_file_any_case (lower : str -> str) (stem ext : str) :
  (forall s, Forall (fun c => (c < 128)%N) s ->
             lower s = map server.ascii_lower s) ->
  Forall (fun c => (c < 128)%N) ext ->
  In (map server.ascii_lower ext) server.ALLOWED_EXTENSIONS ->
  server.allowed_file lower (stem ++ server.dot :: ext) = Ok true.
Proof.
  intros Hl Hascii Hin.
  assert (Hn : ~ In server.dot ext).
  { intros Hd.
    apply (in_map server.ascii_lower) in Hd.
    change (server.ascii_lower server.dot) with 46%N in Hd.
    simpl in Hin.
    repeat (destruct Hin as [Hin | Hin];
            [rewrite <- Hin in Hd; simpl in Hd;
             repeat (destruct Hd as [Hd | Hd]; [discriminate |]);
             contradiction |]).
    contradiction. }
  rewrite (allowed_file_last_dot lower stem ext Hn), (Hl ext Hascii).
  f_equal. apply existsb_exists.
  exists (map server.ascii_lower ext). split; [assumption |].
  unfold str_eqb. now destruct (list_eq_dec N.eq_dec _ _).
Qed.

Lemma allowed_file_any_case_witness :
  (forall s, Forall (fun c => (c < 128)%N) s ->
             map server.ascii_lower s = map server.ascii_lower s) /\
  Forall (fun c => (c < 128)%N) [74; 112; 69; 71]%N /\
  In (map server.ascii_lower [74; 112; 69; 71]%N) server.ALLOWED_EXTENSIONS /\
  server.allowed_file (map server.ascii_lower)
    ([115; 99; 97; 110] ++ server.dot :: [74; 112; 69; 71])%N = Ok true.
Proof.
  assert (Hl : forall s, Forall (fun c => (c < 128)%N) s ->
                 map server.ascii_lower s = map server.ascii_lower s)
    by reflexivity.
  assert (Ha : Forall (fun c => (c < 128)%N) [74; 112; 69; 71]%N)
    by (repeat constructor).
  assert (Hi : In (map server.ascii_lower [74; 112; 69; 71]%N)
                 server.ALLOWED_EXTENSIONS)
    by (right; right; left; reflexivity).
  split; [exact Hl |]. split; [exact Ha |]. split; [exact Hi |].
  apply (allowed_file_any_case (map server.ascii_lower)
           [115; 99; 97; 110]%N [74; 112; 69; 71]%N Hl Ha Hi).
Defined.
